(** * Poseidon Merkle accumulator: shallow embedding and verified properties

    The development follows the class [PoseidonMerkleTree] (constructor,
    [init], [initFromJSON], [hash], [computeFinalRoot], [hashLeaf],
    [buildTree], [getRoot], [getProofFromStoredData], [verifyProof],
    [exportToJSON]) and the helper [uidToFieldElement].

    Conventions of the embedding.
    - A JavaScript string is represented by the sequence of its UTF-8 bytes
      (a Rocq [string]), which is what [Buffer.from(s, 'utf8')] exposes.
    - A BigInt is a [Z]; [<<] is [Z.shiftl].
    - A hash value is the decimal string printed by [F.toString]; such a
      string is identified with the integer it denotes, so that [BigInt(h)]
      is the identity on hash values and [===] on them is equality on [Z].
    - [null] and [undefined] are [None].
    - A method that mutates [this] is a function from the old object to the
      new one; a method that can throw returns a [result]. *)

From Equations Require Import Equations.
From stdpp Require Import base decidable option list strings pretty.
From Stdlib Require Import ZArith Lia.

Local Open Scope Z_scope.

Set Default Proof Using "Type".

(** ** Exceptions *)

(** A thrown error object, identified by its [name]. *)
Record JsError : Type := mkError { err_name : string }.

Definition TypeError : JsError := mkError "TypeError".

Inductive result (A : Type) : Type :=
| Ok (a : A)
| Throw (e : JsError).
Arguments Ok {A} a.
Arguments Throw {A} e.

#[export] Instance result_ret : MRet result := fun A a => Ok a.

#[export] Instance result_bind : MBind result := fun A B k m =>
  match m with
  | Ok a => k a
  | Throw e => Throw e
  end.

(** [BigInt(v)] on a value that is an integer, or a decimal string of one,
    gives that integer; on [null] or [undefined] it throws a TypeError. *)
Definition BigInt (v : option Z) : result Z :=
  match v with
  | Some n => Ok n
  | None => Throw TypeError
  end.

(** ** Byte packing *)

(** [Buffer.from(s, 'utf8')]: the bytes of the string, as numbers. *)
Definition utf8 (s : string) : list Z :=
  (fun c => Z.of_N (Ascii.N_of_ascii c)) <$> String.list_ascii_of_string s.

(** The loop [num = (num << 8n) + BigInt(bytes[i])] over all bytes,
    from [num = 0n]. *)
Definition packBytes (bytes : list Z) : Z :=
  fold_left (fun num b => Z.shiftl num 8 + b) bytes 0.

(** [uidToFieldElement]: the packed integer, printed in decimal. *)
Definition uidToFieldElement (uid : string) : string :=
  pretty (packBytes (utf8 uid)).

(** A byte value. *)
Definition isByte (b : Z) : Prop := 0 ≤ b < 256.

(** The identifier begins with the character U+0000, whose UTF-8 encoding
    is the byte 0. *)
Definition leadingNul (uid : string) : bool :=
  match uid with
  | String c _ => bool_decide (c = Ascii.zero)
  | EmptyString => false
  end.

(** ** Data model *)

(** A node object.  Layer-0 nodes are [{hash, uid, balance}], nodes above
    are [{hash, left, right}], nodes of a snapshot are [{hash, uid, balance}]
    with [uid] and [balance] undefined above layer 0. *)
#[warnings="-register-all"]
Inductive Node : Type :=
  mkNode {
    n_hash : Z;
    n_uid : option string;
    n_balance : option Z;
    n_left : option Node;
    n_right : option Node
  }.

Record ProofElement : Type := mkProofElement {
  pe_hash : Z;
  pe_position : string
}.

(** The object returned by [getProofFromStoredData]. *)
Record Proof : Type := mkProof {
  p_uid : string;
  p_balance : option Z;
  p_leafHash : Z;
  p_proof : list ProofElement;
  p_merkleRoot : option Z;
  p_timestamp : option Z;
  p_finalRoot : option Z
}.

(** The object returned by [verifyProof]. *)
Record Verdict : Type := mkVerdict {
  merklePathValid : bool;
  finalRootValid : bool;
  overallValid : bool
}.

(** The fields of a [PoseidonMerkleTree] instance ([poseidon] and [F] are
    the parameters of the section below). *)
Record PoseidonMerkleTree : Type := mkTree {
  leaves : list (string * Z);
  layers : list (list Node);
  timestamp : option Z;
  finalRoot : option Z
}.

(** The object returned by [exportToJSON] and read by [initFromJSON]. *)
Record Snapshot : Type := mkSnapshot {
  s_merkleRoot : option Z;
  s_timestamp : option Z;
  s_finalRoot : option Z;
  s_leaves : list (string * Z);
  s_layers : list (list Node);
  s_hashFunction : string
}.

(** The object returned by [getProof] in the variant of the class without
    timestamp. *)
Record PlainProof : Type := mkPlainProof {
  pp_uid : string;
  pp_balance : option Z;
  pp_leafHash : Z;
  pp_proof : list ProofElement;
  pp_root : option Z
}.

(** The object returned by [exportToJSON] in that variant. *)
Record PlainSnapshot : Type := mkPlainSnapshot {
  ps_root : option Z;
  ps_leaves : list (string * Z);
  ps_layers : list (list Node);
  ps_hashFunction : string;
  ps_timestamp : Z
}.

(** What [verifyProof] can be handed as its [proof] argument: a plain
    object (not iterable), or an array of path elements, possibly carrying
    own properties [merkleRoot], [timestamp], [finalRoot] (absent: [None]). *)
Inductive ProofArg : Type :=
| ObjectArg (p : Proof)
| ArrayArg (elems : list ProofElement) (merkleRoot timestamp finalRoot : option Z).

(** [for (const e of proof)]: the elements, or a TypeError when [proof] is
    not iterable. *)
Definition iterate (a : ProofArg) : result (list ProofElement) :=
  match a with
  | ObjectArg _ => Throw TypeError
  | ArrayArg elems _ _ _ => Ok elems
  end.

Definition get_merkleRoot (a : ProofArg) : option Z :=
  match a with
  | ObjectArg p => p_merkleRoot p
  | ArrayArg _ r _ _ => r
  end.

Definition get_timestamp (a : ProofArg) : option Z :=
  match a with
  | ObjectArg p => p_timestamp p
  | ArrayArg _ _ t _ => t
  end.

Definition get_finalRoot (a : ProofArg) : option Z :=
  match a with
  | ObjectArg p => p_finalRoot p
  | ArrayArg _ _ _ f => f
  end.

(** [constructor(leaves)] *)
Definition newTree (lvs : list (string * Z)) : PoseidonMerkleTree :=
  {| leaves := lvs; layers := []; timestamp := None; finalRoot := None |}.

(** [array.findIndex(pred)], with [None] for [-1]. *)
Fixpoint findIndexFrom {A : Type} (pred : A → bool) (i : nat) (l : list A) : option nat :=
  match l with
  | [] => None
  | x :: rest => if pred x then Some i else findIndexFrom pred (S i) rest
  end.

Definition findIndex {A : Type} (pred : A → bool) (l : list A) : option nat :=
  findIndexFrom pred 0%nat l.

(** ** Sample data *)

(** A small stand-in for the hash primitive, to run the definitions on
    sample data: field elements are the integers below [samplePrime]. *)
Definition samplePrime : Z := 2147483647.

Definition sampleF_e (n : Z) : Z := n mod samplePrime.

Definition samplePoseidon (inputs : list Z) : Z :=
  fold_left (fun acc x => (acc * 1000003 + x + 1) mod samplePrime) inputs 7.

(** The entries and a timestamp as in the example at the end of the file. *)
Definition sampleEntries : list (string * Z) :=
  [("UID_1", 1000); ("UID_2", 2500); ("UID_3", 750); ("UID_4", 3000);
   ("UID_5", 1500)]%string.

Definition sampleNow : Z := 1700000000000.

(** A tree as [initFromJSON] reads it from a snapshot of three entries,
    and the proof for its third entry. *)
Definition storedSample : PoseidonMerkleTree :=
  {| leaves := [("a", 1); ("b", 2); ("c", 3)]%string;
     layers :=
       [ [ mkNode 11 (Some "a"%string) (Some 1) None None;
           mkNode 12 (Some "b"%string) (Some 2) None None;
           mkNode 13 (Some "c"%string) (Some 3) None None ];
         [ mkNode 21 None None None None; mkNode 22 None None None None ];
         [ mkNode 31 None None None None ] ];
     timestamp := Some sampleNow;
     finalRoot := Some 41 |}.

Definition storedSampleProof : Proof :=
  {| p_uid := "c";
     p_balance := Some 3;
     p_leafHash := 13;
     p_proof := [ {| pe_hash := 21; pe_position := "left" |} ];
     p_merkleRoot := Some 31;
     p_timestamp := Some sampleNow;
     p_finalRoot := Some 41 |}.

(** The entries of the caller script. *)
Definition fourEntries : list (string * Z) :=
  [("1", 5000); ("2", 3000); ("3", 4000); ("4", 6000)]%string.

(** Entries in which an identifier occurs twice. *)
Definition duplicateEntries : list (string * Z) :=
  [("a", 1); ("b", 2); ("a", 3)]%string.

(** A result is a failure with the error called [name]. *)
Definition failsWith {A : Type} (r : result A) (name : string) : Prop :=
  ∃ e : JsError, r = Throw e ∧ err_name e = name.

(** ** The class [PoseidonMerkleTree] *)

(** An element of the array given to [hash]: a string or a BigInt. *)
Inductive HashInput : Type :=
| InString (s : string)
| InBigInt (n : Z).

Section Accumulator.

(** The hash primitive of circomlibjs: the field [F] with its conversion
    [F.e] from integers and its decimal printer [F.toString], and the
    permutation [poseidon]. *)
Variable Fel : Type.
Variable F_e : Z → Fel.
Variable F_toString : Fel → Z.
Variable poseidon : list Fel → Fel.

Definition hash (inputs : list HashInput) : Z :=
  let fieldInputs :=
    (fun input =>
       match input with
       | InString s => F_e (packBytes (utf8 s))
       | InBigInt n => F_e n
       end) <$> inputs in
  F_toString (poseidon fieldInputs).

Definition hashLeaf (uid : string) (balance : Z) : Z :=
  let uidNum := packBytes (utf8 uid) in
  hash [InBigInt uidNum; InBigInt balance].

(** One run of the inner [for] loop of [buildTree]: [i] advances by two,
    [right = currentLayer[i + 1] || left]. *)
Fixpoint pairLayer (currentLayer : list Node) : list Node :=
  match currentLayer with
  | [] => []
  | [lft] =>
      [mkNode (hash [InBigInt (n_hash lft); InBigInt (n_hash lft)])
              None None (Some lft) (Some lft)]
  | lft :: rgt :: rest =>
      mkNode (hash [InBigInt (n_hash lft); InBigInt (n_hash rgt)])
             None None (Some lft) (Some rgt)
      :: pairLayer rest
  end.

Lemma pairLayer_length (l : list Node) :
  (length (pairLayer l) = (length l + 1) / 2)%nat.
Proof.
  remember (length l) as n eqn:Hn. revert l Hn.
  induction n as [n IH] using lt_wf_ind. intros l ->.
  destruct l as [|a [|b r]]; [reflexivity | reflexivity |].
  cbn [pairLayer length]. rewrite (IH (length r)) by (cbn; lia || reflexivity).
  replace (S (S (length r)) + 1)%nat with (length r + 1 + 1 * 2)%nat by lia.
  rewrite Nat.div_add by lia. lia.
Qed.

(** The [while (currentLayer.length > 1)] loop of [buildTree]; [acc] is
    [this.layers]. *)
Equations? buildLoop (currentLayer : list Node) (acc : list (list Node))
  : list (list Node) by wf (length currentLayer) lt :=
  buildLoop currentLayer acc with decide (1 < length currentLayer)%nat := {
    | left Hgt =>
        let newLayer := pairLayer currentLayer in
        buildLoop newLayer (acc ++ [newLayer]);
    | right _ => acc }.
Proof.
  subst newLayer. rewrite pairLayer_length.
  apply Nat.Div0.div_lt_upper_bound; lia.
Qed.

(** The layers that [buildTree] appends to [this.layers], bottom layer
    first. *)
Definition tower (bottom : list Node) : list (list Node) :=
  bottom :: buildLoop bottom [].

(** The arrow function of [buildTree] that makes the layer-0 node of an
    entry [[uid, balance]]. *)
Definition leafNode (entry : string * Z) : Node :=
  let '(uid, balance) := entry in
  mkNode (hashLeaf uid balance) (Some uid) (Some balance) None None.

(** [buildTree()]: layer 0 from [this.leaves], then the loop. *)
Definition buildTree (t : PoseidonMerkleTree) : PoseidonMerkleTree :=
  let currentLayer := leafNode <$> leaves t in
  {| leaves := leaves t;
     layers := buildLoop currentLayer (layers t ++ [currentLayer]);
     timestamp := timestamp t;
     finalRoot := finalRoot t |}.

(** [getRoot()]: [null] without layers; reading [.hash] of the missing
    first node of an empty top layer throws. *)
Definition getRoot (t : PoseidonMerkleTree) : result (option Z) :=
  if (length (layers t) =? 0)%nat then Ok None
  else
    match layers t !! (length (layers t) - 1)%nat ≫= (.!! 0%nat) with
    | Some top => Ok (Some (n_hash top))
    | None => Throw TypeError
    end.

(** [computeFinalRoot()]: the updated object and the returned value.
    [!merkleRoot] holds for [null] only (a printed hash is never empty),
    [!this.timestamp] for [null] and for [0]. *)
Definition computeFinalRoot (t : PoseidonMerkleTree)
  : result (PoseidonMerkleTree * option Z) :=
  merkleRoot ← getRoot t;
  match merkleRoot, timestamp t with
  | Some r, Some ts =>
      if ts =? 0 then Ok (t, None)
      else
        let f := hash [InBigInt r; InBigInt ts] in
        Ok ({| leaves := leaves t; layers := layers t;
               timestamp := timestamp t; finalRoot := Some f |}, Some f)
  | _, _ => Ok (t, None)
  end.

(** [init()], with [now] the value of [Date.now()]. *)
Definition init (now : Z) (t : PoseidonMerkleTree) : result PoseidonMerkleTree :=
  let t1 := {| leaves := leaves t; layers := layers t;
               timestamp := Some now; finalRoot := finalRoot t |} in
  let t2 := buildTree t1 in
  r ← computeFinalRoot t2;
  Ok r.1.

(** [initFromJSON(jsonData)] *)
Definition initFromJSON (t : PoseidonMerkleTree) (jsonData : Snapshot)
  : PoseidonMerkleTree :=
  {| leaves := s_leaves jsonData;
     layers := s_layers jsonData;
     timestamp := s_timestamp jsonData;
     finalRoot := s_finalRoot jsonData |}.

(** The body of the [for] loop of [getProofFromStoredData] at one layer:
    the path after the step and the next [nodeIndex]. *)
Definition proofStep (currentLayer : list Node) (nodeIndex : nat)
    (proof : list ProofElement) : list ProofElement * nat :=
  let isLeftNode := (nodeIndex mod 2 =? 0)%nat in
  let siblingIndex := if isLeftNode then (nodeIndex + 1)%nat else (nodeIndex - 1)%nat in
  let proof' :=
    if (siblingIndex <? length currentLayer)%nat then
      match currentLayer !! siblingIndex with
      | Some sibling =>
          proof ++ [ {| pe_hash := n_hash sibling;
                        pe_position := if isLeftNode then "right"%string
                                       else "left"%string |} ]
      | None => proof
      end
    else proof in
  (proof', (nodeIndex / 2)%nat).

(** The loop itself, over the layers [this.layers[0]] to
    [this.layers[this.layers.length - 2]]. *)
Fixpoint proofLoop (below : list (list Node)) (nodeIndex : nat)
    (proof : list ProofElement) : list ProofElement :=
  match below with
  | [] => proof
  | currentLayer :: rest =>
      let '(proof', nodeIndex') := proofStep currentLayer nodeIndex proof in
      proofLoop rest nodeIndex' proof'
  end.

(** [getProofFromStoredData(uid)]: [Ok None] is the [null] returned for
    an absent identifier. *)
Definition getProofFromStoredData (t : PoseidonMerkleTree) (uid : string)
  : result (option Proof) :=
  match layers t !! 0%nat with
  | None => Throw TypeError
  | Some leafLayer =>
      match findIndex (fun node => bool_decide (n_uid node = Some uid)) leafLayer with
      | None => Ok None
      | Some nodeIndex =>
          match leafLayer !! nodeIndex with
          | None => Throw TypeError
          | Some currentNode =>
              let proof :=
                proofLoop (take (length (layers t) - 1) (layers t)) nodeIndex [] in
              root ← getRoot t;
              Ok (Some {| p_uid := uid;
                          p_balance := n_balance currentNode;
                          p_leafHash := n_hash currentNode;
                          p_proof := proof;
                          p_merkleRoot := root;
                          p_timestamp := timestamp t;
                          p_finalRoot := finalRoot t |})
          end
      end
  end.

(** One iteration of the loop of [verifyProof]. *)
Definition combine (computedHash : Z) (proofElement : ProofElement) : Z :=
  if bool_decide (pe_position proofElement = "left"%string) then
    hash [InBigInt (pe_hash proofElement); InBigInt computedHash]
  else
    hash [InBigInt computedHash; InBigInt (pe_hash proofElement)].

(** [verifyProof(uid, balance, proof, root)] *)
Definition verifyProof (uid : string) (balance : Z) (proof : ProofArg)
    (root : option Z) : result Verdict :=
  let leafHash := hashLeaf uid balance in
  elems ← iterate proof;
  let computedHash := fold_left combine elems leafHash in
  let merklePathValid := bool_decide (Some computedHash = get_merkleRoot proof) in
  r ← BigInt (get_merkleRoot proof);
  ts ← BigInt (get_timestamp proof);
  let computedFinalRoot := hash [InBigInt r; InBigInt ts] in
  let finalRootValid := bool_decide (Some computedFinalRoot = get_finalRoot proof) in
  Ok {| merklePathValid := merklePathValid;
        finalRootValid := finalRootValid;
        overallValid := merklePathValid && finalRootValid |}.

(** [verifyMerkleProof(uid, balance, proofData)]: [verifyProof] on
    [proofData.proof] and [proofData.root]; the path array has no property
    [merkleRoot], [timestamp] or [finalRoot], and a proof object has no
    [root]. *)
Definition verifyMerkleProof (uid : string) (balance : Z) (proofData : Proof)
  : result Verdict :=
  verifyProof uid balance (ArrayArg (p_proof proofData) None None None) None.

(** [verifyProof] of the variant of the class without timestamp: a
    boolean, the comparison with the [root] argument. *)
Definition verifyProof_plain (uid : string) (balance : Z)
    (proof : list ProofElement) (root : option Z) : bool :=
  let computedHash := fold_left combine proof (hashLeaf uid balance) in
  bool_decide (Some computedHash = root).

(** The node copy [{hash: node.hash, uid: node.uid, balance: node.balance}]
    made by [exportToJSON]. *)
Definition storedNode (node : Node) : Node :=
  mkNode (n_hash node) (n_uid node) (n_balance node) None None.

(** [exportToJSON()] *)
Definition exportToJSON (t : PoseidonMerkleTree) : result Snapshot :=
  root ← getRoot t;
  Ok {| s_merkleRoot := root;
        s_timestamp := timestamp t;
        s_finalRoot := finalRoot t;
        s_leaves := leaves t;
        s_layers := (fun layer : list Node => storedNode <$> layer) <$> layers t;
        s_hashFunction := "poseidon"%string |}.

(** The path element that extraction records for the node at [index] of
    [layer], in the words of the extraction rule: the sibling is the adjacent
    node, [index + 1] on the right when [index] is even, [index - 1] on the
    left when it is odd, and nothing is recorded when that index is out of
    range. *)
Definition siblingElement (layer : list Node) (index : nat) : list ProofElement :=
  let siblingIndex := if Nat.even index then (index + 1)%nat else (index - 1)%nat in
  match layer !! siblingIndex with
  | Some sibling =>
      [ {| pe_hash := n_hash sibling;
           pe_position := if Nat.even index then "right"%string else "left"%string |} ]
  | None => []
  end.

(** The layers that the extraction loop visits: all but the top one. *)
Definition belowRoot (t : PoseidonMerkleTree) : list (list Node) :=
  take (length (layers t) - 1) (layers t).

(** The [finalRoot] that [computeFinalRoot] stores for a tree with top node
    [top] and timestamp [now]. *)
Definition finalRootOf (top : Node) (now : Z) : option Z :=
  if now =? 0 then None
  else Some (hash [InBigInt (n_hash top); InBigInt now]).

(** The tree that [init] returns for [entries] at time [now], given the
    node [top] of its last layer. *)
Definition builtTree (entries : list (string * Z)) (now : Z) (top : Node)
  : PoseidonMerkleTree :=
  {| leaves := entries;
     layers := tower (leafNode <$> entries);
     timestamp := Some now;
     finalRoot := finalRootOf top now |}.

(** [buildMerkleTree(input)]: the tree and the data written to the tree
    file; the content of the file is represented by the snapshot object. *)
Definition buildMerkleTree (now : Z) (input : list (string * Z))
  : result (PoseidonMerkleTree * Snapshot) :=
  tree ← init now (newTree input);
  treeData ← exportToJSON tree;
  Ok (tree, treeData).

(** [getMerkleProof(uid, treeDataPath)], given the data read from the tree
    file. *)
Definition getMerkleProof (uid : string) (treeData : Snapshot)
  : result (option Proof) :=
  let tree := initFromJSON (newTree []) treeData in
  getProofFromStoredData tree uid.

(** The variant of the class without timestamp.  Its instances have the
    fields [leaves] and [layers] only; [buildTree] and [getRoot] are the same
    methods. *)

(** [init()] of the variant. *)
Definition init_plain (t : PoseidonMerkleTree) : PoseidonMerkleTree :=
  buildTree t.

(** [getProof(uid)] of the variant. *)
Definition getProof (t : PoseidonMerkleTree) (uid : string)
  : result (option PlainProof) :=
  match layers t !! 0%nat with
  | None => Throw TypeError
  | Some leafLayer =>
      match findIndex (fun node => bool_decide (n_uid node = Some uid)) leafLayer with
      | None => Ok None
      | Some nodeIndex =>
          match leafLayer !! nodeIndex with
          | None => Throw TypeError
          | Some currentNode =>
              let proof :=
                proofLoop (take (length (layers t) - 1) (layers t)) nodeIndex [] in
              root ← getRoot t;
              Ok (Some {| pp_uid := uid;
                          pp_balance := n_balance currentNode;
                          pp_leafHash := n_hash currentNode;
                          pp_proof := proof;
                          pp_root := root |})
          end
      end
  end.

(** [exportToJSON()] of the variant, with [now] the value of [Date.now()]. *)
Definition exportToJSON_plain (now : Z) (t : PoseidonMerkleTree)
  : result PlainSnapshot :=
  root ← getRoot t;
  Ok {| ps_root := root;
        ps_leaves := leaves t;
        ps_layers := (fun layer : list Node => storedNode <$> layer) <$> layers t;
        ps_hashFunction := "poseidon"%string;
        ps_timestamp := now |}.

(** [getMerkleProof(uid, treeDataPath)] of the variant: the tree is rebuilt
    from the leaves read from the tree file. *)
Definition getMerkleProof_plain (uid : string) (treeData : PlainSnapshot)
  : result (option PlainProof) :=
  let tree := init_plain (newTree (ps_leaves treeData)) in
  getProof tree uid.

(** The fields that [getProof] of the variant shares with
    [getProofFromStoredData]. *)
Definition plainOf (p : Proof) : PlainProof :=
  {| pp_uid := p_uid p;
     pp_balance := p_balance p;
     pp_leafHash := p_leafHash p;
     pp_proof := p_proof p;
     pp_root := p_merkleRoot p |}.


(** *** The shape of the layers *)

Lemma buildLoop_eq (currentLayer : list Node) (acc : list (list Node)) :
  buildLoop currentLayer acc =
    if decide (1 < length currentLayer)%nat
    then buildLoop (pairLayer currentLayer) (acc ++ [pairLayer currentLayer])
    else acc.
Proof.
  rewrite buildLoop_equation_1.
  destruct (decide (1 < length currentLayer)%nat); reflexivity.
Qed.

Lemma buildLoop_acc (currentLayer : list Node) (acc : list (list Node)) :
  buildLoop currentLayer acc = acc ++ buildLoop currentLayer [].
Proof.
  remember (length currentLayer) as n eqn:Hn. revert currentLayer acc Hn.
  induction n as [n IH] using lt_wf_ind. intros cur acc ->.
  rewrite (buildLoop_eq cur acc), (buildLoop_eq cur []).
  destruct (decide (1 < length cur)%nat) as [Hgt|Hle].
  - assert (Hlt : (length (pairLayer cur) < length cur)%nat).
    { rewrite pairLayer_length. apply Nat.Div0.div_lt_upper_bound; lia. }
    rewrite (IH _ Hlt _ (acc ++ [pairLayer cur]) eq_refl).
    rewrite (IH _ Hlt _ ([] ++ [pairLayer cur]) eq_refl).
    by rewrite <- app_assoc.
  - by rewrite app_nil_r.
Qed.

Lemma tower_eq (bottom : list Node) :
  tower bottom =
    if decide (1 < length bottom)%nat then bottom :: tower (pairLayer bottom)
    else [bottom].
Proof.
  unfold tower. rewrite (buildLoop_eq bottom []).
  destruct (decide (1 < length bottom)%nat); [|done].
  by rewrite buildLoop_acc.
Qed.

Lemma buildTree_layers (t : PoseidonMerkleTree) :
  layers (buildTree t) =
    layers t ++ tower (leafNode <$> leaves t).
Proof.
  unfold buildTree, tower; cbn [layers]. rewrite buildLoop_acc.
  by rewrite <- app_assoc.
Qed.

(** Induction along the loop: a property of the towers that holds for a
    layer of at most one node, and is inherited from the tower of the next
    layer, holds for all towers. *)
Lemma tower_ind (P : list Node → list (list Node) → Prop) :
  (∀ bottom, (length bottom ≤ 1)%nat → P bottom [bottom]) →
  (∀ bottom, (1 < length bottom)%nat →
             P (pairLayer bottom) (tower (pairLayer bottom)) →
             P bottom (bottom :: tower (pairLayer bottom))) →
  ∀ bottom, P bottom (tower bottom).
Proof.
  intros Hstop Hstep bottom.
  remember (length bottom) as n eqn:Hn. revert bottom Hn.
  induction n as [n IH] using lt_wf_ind. intros bottom ->.
  rewrite tower_eq. destruct (decide (1 < length bottom)%nat) as [Hgt|Hle].
  - apply Hstep; [done|]. eapply IH; [|reflexivity].
    rewrite pairLayer_length. apply Nat.Div0.div_lt_upper_bound; lia.
  - apply Hstop. lia.
Qed.

Lemma pairLayer_nonempty (l : list Node) : l ≠ [] → pairLayer l ≠ [].
Proof. by destruct l as [|a [|b r]]. Qed.

(** Consecutive layers of a tower are related by [pairLayer]. *)
Lemma tower_chain (bottom : list Node) (i : nat) (prev next : list Node) :
  tower bottom !! i = Some prev →
  tower bottom !! S i = Some next →
  next = pairLayer prev.
Proof.
  revert i prev next. pattern bottom, (tower bottom).
  apply tower_ind; clear bottom.
  - intros bottom _ i prev next Hp Hn. by destruct i.
  - intros bottom _ IH i prev next Hp Hn. destruct i as [|i].
    + injection Hp as <-. unfold tower in Hn. cbn in Hn. congruence.
    + exact (IH i prev next Hp Hn).
Qed.

(** The top layer of a tower over a non-empty layer is a single node. *)
Lemma tower_last (bottom : list Node) :
  bottom ≠ [] → ∃ top, last (tower bottom) = Some [top].
Proof.
  pattern bottom, (tower bottom). apply tower_ind; clear bottom.
  - intros bottom Hle Hne.
    destruct bottom as [|a [|b r]]; [done| |cbn in Hle; lia]. by exists a.
  - intros bottom _ IH Hne.
    destruct IH as [top Htop]; [by apply pairLayer_nonempty|].
    exists top. rewrite <- Htop. unfold tower. reflexivity.
Qed.

Lemma tower_length_pos (bottom : list Node) : (0 < length (tower bottom))%nat.
Proof. unfold tower; cbn; lia. Qed.

(** Node [k] of the next layer combines nodes [2k] and [2k+1] of the
    layer below, or node [2k] with itself when [2k+1] is out of range. *)
Lemma pairLayer_lookup (l : list Node) (k : nat) (node : Node) :
  pairLayer l !! k = Some node →
  ∃ lft, l !! (2 * k)%nat = Some lft ∧
         let rgt := default lft (l !! (2 * k + 1)%nat) in
         node = mkNode (hash [InBigInt (n_hash lft); InBigInt (n_hash rgt)])
                       None None (Some lft) (Some rgt).
Proof.
  remember (length l) as n eqn:Hn. revert l k Hn.
  induction n as [n IH] using lt_wf_ind. intros l k -> Hk.
  destruct l as [|a [|b r]]; [done| |].
  - destruct k; [|done]. injection Hk as <-. by exists a.
  - destruct k as [|k]; cbn in Hk.
    + injection Hk as <-. by exists a.
    + destruct (IH (length r) ltac:(cbn; lia) r k eq_refl Hk) as (lft & Hl & Hnode).
      exists lft. split.
      * by replace (2 * S k)%nat with (S (S (2 * k))) by lia.
      * by replace (2 * S k + 1)%nat with (S (S (2 * k + 1))) by lia.
Qed.

Lemma newTree_layers (entries : list (string * Z)) :
  layers (buildTree (newTree entries)) = tower (leafNode <$> entries).
Proof. by rewrite buildTree_layers. Qed.

(** *** Claims about [buildTree] *)

(** C7: after [buildTree] on a non-empty entry list, every layer above
    layer 0 has the length of the layer below it halved and rounded up
    ([(n + 1) / 2], the number [m] with [n ≤ 2m < n + 2]), and the last layer
    consists of exactly one node. *)
Theorem buildTree_layer_lengths (entries : list (string * Z)) :
  entries ≠ [] →
  let L := layers (buildTree (newTree entries)) in
  (∀ (i : nat) (prev cur : list Node),
      (0 < i)%nat → L !! (i - 1)%nat = Some prev → L !! i = Some cur →
      length cur = ((length prev + 1) / 2)%nat ∧
      (length prev ≤ 2 * length cur < length prev + 2)%nat) ∧
  (∃ top : Node, L !! (length L - 1)%nat = Some [top]).
Proof.
  intros Hne L. subst L. rewrite newTree_layers. split.
  - intros i prev cur Hi Hp Hc. destruct i as [|i]; [lia|].
    replace (S i - 1)%nat with i in Hp by lia.
    rewrite (tower_chain _ _ _ _ Hp Hc), pairLayer_length.
    split; [done|].
    pose proof (Nat.div_mod_eq (length prev + 1) 2) as Hd.
    pose proof (Nat.mod_upper_bound (length prev + 1) 2). lia.
  - destruct (tower_last (leafNode <$> entries)) as [top Htop].
    { by destruct entries. }
    exists top. rewrite <- Htop, last_lookup. f_equal.
    pose proof (tower_length_pos (leafNode <$> entries)). lia.
Qed.

(** C3: every layer above the leaves is the previous layer paired
    left to right: it has half its length rounded up, and its node [k] hashes
    nodes [2k] and [2k+1] of the previous layer, or node [2k] with itself when
    [2k+1] is out of range; a tree of three leaves has the root
    [hash [hash [leaf0, leaf1], hash [leaf2, leaf2]]]. *)
Theorem buildTree_pairs_adjacent :
  (∀ (entries : list (string * Z)) (i : nat) (prev cur : list Node),
      let L := layers (buildTree (newTree entries)) in
      L !! i = Some prev → L !! S i = Some cur →
      length cur = ((length prev + 1) / 2)%nat ∧
      ∀ (k : nat) (node : Node),
        cur !! k = Some node →
        ∃ lft : Node,
          prev !! (2 * k)%nat = Some lft ∧
          let rgt := default lft (prev !! (2 * k + 1)%nat) in
          n_hash node = hash [InBigInt (n_hash lft); InBigInt (n_hash rgt)] ∧
          n_left node = Some lft ∧ n_right node = Some rgt) ∧
  (∀ (uid0 uid1 uid2 : string) (bal0 bal1 bal2 : Z),
      getRoot (buildTree (newTree [(uid0, bal0); (uid1, bal1); (uid2, bal2)])) =
        Ok (Some (hash [InBigInt (hash [InBigInt (hashLeaf uid0 bal0);
                                        InBigInt (hashLeaf uid1 bal1)]);
                        InBigInt (hash [InBigInt (hashLeaf uid2 bal2);
                                        InBigInt (hashLeaf uid2 bal2)])]))).
Proof.
  split.
  - intros entries i prev cur L Hp Hc. subst L. rewrite newTree_layers in Hp, Hc.
    rewrite (tower_chain _ _ _ _ Hp Hc). split; [apply pairLayer_length|].
    intros k node Hk. destruct (pairLayer_lookup _ _ _ Hk) as (lft & Hl & ->).
    by exists lft.
  - intros. reflexivity.
Qed.

(** C4 (as the code has it): [buildTree] on an empty entry list
    completes and leaves the single empty layer; no root is produced for it:
    [getRoot] throws a TypeError, and so does [init] when it computes the
    final root. *)
Theorem buildTree_empty_completes :
  buildTree (newTree []) =
    {| leaves := []; layers := [[]]; timestamp := None; finalRoot := None |} ∧
  getRoot (buildTree (newTree [])) = Throw TypeError ∧
  ∀ now : Z, init now (newTree []) = Throw TypeError.
Proof. by repeat split. Qed.

(** *** [findIndex] *)

Lemma findIndexFrom_shift {A : Type} (pred : A → bool) (i : nat) (l : list A) :
  findIndexFrom pred i l = (fun n => (i + n)%nat) <$> findIndexFrom pred 0%nat l.
Proof.
  revert i. induction l as [|x l IH]; intros i; [done|]. cbn.
  destruct (pred x); cbn; [f_equal; lia|].
  rewrite (IH (S i)), (IH 1%nat). destruct (findIndexFrom pred 0 l); cbn; [|done].
  f_equal; lia.
Qed.

(** [findIndex] returns the smallest index whose element satisfies the
    predicate. *)
Lemma findIndex_first {A : Type} (pred : A → bool) (l : list A) (i : nat) (x : A) :
  l !! i = Some x → pred x = true →
  (∀ (j : nat) (y : A), (j < i)%nat → l !! j = Some y → pred y = false) →
  findIndex pred l = Some i.
Proof.
  unfold findIndex. revert i. induction l as [|a l IH]; intros i Hi Hx Hlt; [done|].
  destruct i as [|i]; cbn in *.
  - injection Hi as ->. by rewrite Hx.
  - rewrite (Hlt 0%nat a) by (done || lia).
    rewrite findIndexFrom_shift, (IH i); [done..|].
    intros j y Hj Hy. apply (Hlt (S j) y); [lia|done].
Qed.

Lemma findIndex_Some {A : Type} (pred : A → bool) (l : list A) (i : nat) :
  findIndex pred l = Some i →
  ∃ x, l !! i = Some x ∧ pred x = true ∧
       ∀ (j : nat) (y : A), (j < i)%nat → l !! j = Some y → pred y = false.
Proof.
  unfold findIndex. revert i. induction l as [|a l IH]; intros i Hi; [done|].
  cbn in Hi. destruct (pred a) eqn:Ha.
  - injection Hi as <-. exists a. repeat split; [done|]. intros; lia.
  - rewrite findIndexFrom_shift in Hi.
    destruct (findIndexFrom pred 0 l) as [n|] eqn:Hn; [|done].
    injection Hi as <-. destruct (IH n eq_refl) as (x & Hx & Hp & Hlt).
    exists x. repeat split; [done..|].
    intros [|j] y Hj Hy; cbn in Hy; [congruence|]. apply (Hlt j y); [lia|done].
Qed.

Lemma findIndex_fmap {A B : Type} (f : A → B) (pred : B → bool) (l : list A) :
  findIndex pred (f <$> l) = findIndex (pred ∘ f) l.
Proof.
  unfold findIndex. generalize 0%nat. induction l as [|a l IH]; intros i; [done|].
  cbn. by rewrite IH.
Qed.

(** *** The extraction loop *)

(** One step of the loop records [siblingElement] and halves the index. *)
Lemma proofStep_spec (layer : list Node) (nodeIndex : nat) (proof : list ProofElement) :
  proofStep layer nodeIndex proof =
    (proof ++ siblingElement layer nodeIndex, (nodeIndex / 2)%nat).
Proof.
  unfold proofStep, siblingElement. f_equal.
  assert (Hev : (nodeIndex mod 2 =? 0)%nat = Nat.even nodeIndex).
  { rewrite <- Nat.bit0_mod, Nat.bit0_odd, <- Nat.negb_even.
    by destruct (Nat.even nodeIndex). }
  rewrite Hev. set (sib := if Nat.even nodeIndex then _ else _).
  destruct (sib <? length layer)%nat eqn:Hlt.
  - destruct (layer !! sib); [done|by rewrite app_nil_r].
  - apply Nat.ltb_ge in Hlt. apply lookup_ge_None in Hlt.
    by rewrite Hlt, app_nil_r.
Qed.

Lemma proofLoop_acc (below : list (list Node)) (nodeIndex : nat)
    (proof : list ProofElement) :
  proofLoop below nodeIndex proof = proof ++ proofLoop below nodeIndex [].
Proof.
  revert nodeIndex proof. induction below as [|layer rest IH]; intros n proof.
  - by rewrite app_nil_r.
  - cbn [proofLoop]. rewrite !proofStep_spec.
    rewrite (IH _ (proof ++ _)), (IH _ ([] ++ _)). by rewrite <- app_assoc.
Qed.

Lemma proofLoop_spec (below : list (list Node)) (nodeIndex : nat) :
  proofLoop below nodeIndex [] =
    concat (imap (fun k layer => siblingElement layer (nodeIndex / 2 ^ k)%nat) below).
Proof.
  revert nodeIndex. induction below as [|layer rest IH]; intros n; [done|].
  cbn [proofLoop]. rewrite proofStep_spec. cbn [app].
  rewrite proofLoop_acc, IH, imap_cons. cbn [concat].
  rewrite Nat.pow_0_r, Nat.div_1_r. f_equal. f_equal.
  apply imap_ext. intros k l _. unfold compose. f_equal.
  rewrite Nat.Div0.div_div, Nat.pow_succ_r'. reflexivity.
Qed.

(** *** Root, finalization and extraction on a built tree *)

Lemma getRoot_top (t : PoseidonMerkleTree) (top : Node) (others : list Node) :
  last (layers t) = Some (top :: others) → getRoot t = Ok (Some (n_hash top)).
Proof.
  intros Hlast. unfold getRoot. rewrite last_lookup, <- Nat.sub_1_r in Hlast.
  rewrite Hlast. by destruct (layers t).
Qed.

(** [init] succeeds on a non-empty entry list. *)
Lemma init_ok (entries : list (string * Z)) (now : Z) :
  entries ≠ [] →
  ∃ top : Node,
    last (tower (leafNode <$> entries)) = Some [top] ∧
    init now (newTree entries) =
      Ok {| leaves := entries;
            layers := tower (leafNode <$> entries);
            timestamp := Some now;
            finalRoot := finalRootOf top now |}.
Proof.
  intros Hne. destruct (tower_last (leafNode <$> entries)) as [top Htop].
  { by destruct entries. }
  exists top. split; [done|]. unfold init, computeFinalRoot.
  set (t2 := buildTree _).
  assert (Hl : layers t2 = tower (leafNode <$> entries)).
  { subst t2. by rewrite buildTree_layers. }
  rewrite (getRoot_top t2 top []) by (by rewrite Hl). cbn.
  unfold finalRootOf. destruct (now =? 0); cbn; by rewrite <- Hl.
Qed.

(** What extraction returns when the scan of layer 0 stops at [nodeIndex]. *)
Lemma getProof_found (t : PoseidonMerkleTree) (uid : string)
    (leafLayer : list Node) (nodeIndex : nat) (node : Node) (root : option Z) :
  layers t !! 0%nat = Some leafLayer →
  findIndex (fun node => bool_decide (n_uid node = Some uid)) leafLayer = Some nodeIndex →
  leafLayer !! nodeIndex = Some node →
  getRoot t = Ok root →
  getProofFromStoredData t uid =
    Ok (Some {| p_uid := uid;
                p_balance := n_balance node;
                p_leafHash := n_hash node;
                p_proof := proofLoop (belowRoot t) nodeIndex [];
                p_merkleRoot := root;
                p_timestamp := timestamp t;
                p_finalRoot := finalRoot t |}).
Proof.
  intros H0 Hf Hn Hr. unfold getProofFromStoredData. by rewrite H0, Hf, Hn, Hr.
Qed.

Lemma getProof_inv (t : PoseidonMerkleTree) (uid : string) (p : Proof) :
  getProofFromStoredData t uid = Ok (Some p) →
  ∃ (leafLayer : list Node) (nodeIndex : nat) (node : Node) (root : option Z),
    layers t !! 0%nat = Some leafLayer ∧
    findIndex (fun node => bool_decide (n_uid node = Some uid)) leafLayer = Some nodeIndex ∧
    leafLayer !! nodeIndex = Some node ∧
    getRoot t = Ok root ∧
    p = {| p_uid := uid;
           p_balance := n_balance node;
           p_leafHash := n_hash node;
           p_proof := proofLoop (belowRoot t) nodeIndex [];
           p_merkleRoot := root;
           p_timestamp := timestamp t;
           p_finalRoot := finalRoot t |}.
Proof.
  unfold getProofFromStoredData. intros H.
  destruct (layers t !! 0%nat) as [leafLayer|]; [|done].
  destruct (findIndex _ leafLayer) as [nodeIndex|] eqn:Hf; [|done].
  destruct (leafLayer !! nodeIndex) as [node|] eqn:Hn; [|done].
  destruct (getRoot t) as [root|] eqn:Hr; [|done].
  cbn in H. injection H as <-. by exists leafLayer, nodeIndex, node, root.
Qed.

(** *** Claims about extraction *)

(** C6: the loop of extraction records, at each layer below the
    root, the adjacent node of the current index ([index + 1] on the right
    for an even index, [index - 1] on the left for an odd one) unless that
    index is out of range, and continues with the index halved and rounded
    down whether or not it recorded anything; hence the path of an extracted
    proof lists, layer by layer, the sibling elements at the indices
    [nodeIndex / 2 ^ k]. *)
Theorem extraction_walk (t : PoseidonMerkleTree) (uid : string) (p : Proof) :
  getProofFromStoredData t uid = Ok (Some p) →
  (∀ (layer : list Node) (index : nat) (proof : list ProofElement),
      proofStep layer index proof =
        (proof ++ siblingElement layer index, (index / 2)%nat)) ∧
  ∃ (leafLayer : list Node) (nodeIndex : nat),
    layers t !! 0%nat = Some leafLayer ∧
    findIndex (fun node => bool_decide (n_uid node = Some uid)) leafLayer = Some nodeIndex ∧
    p_proof p =
      concat (imap (fun k layer => siblingElement layer (nodeIndex / 2 ^ k)%nat)
                   (belowRoot t)).
Proof.
  intros H. split; [apply proofStep_spec|].
  destruct (getProof_inv _ _ _ H) as (leafLayer & nodeIndex & node & root & H0 & Hf & _ & _ & ->).
  exists leafLayer, nodeIndex. by rewrite <- proofLoop_spec.
Qed.

(** Extraction on a built tree, for the first entry with a given
    identifier. *)
Lemma getProof_first (entries : list (string * Z)) (now : Z)
    (uid : string) (i : nat) (balance : Z) :
  entries !! i = Some (uid, balance) →
  (∀ (j : nat) (e : string * Z), (j < i)%nat → entries !! j = Some e → e.1 ≠ uid) →
  ∃ top : Node,
    last (tower (leafNode <$> entries)) = Some [top] ∧
    init now (newTree entries) = Ok (builtTree entries now top) ∧
    getProofFromStoredData (builtTree entries now top) uid =
      Ok (Some {| p_uid := uid;
                  p_balance := Some balance;
                  p_leafHash := hashLeaf uid balance;
                  p_proof := proofLoop (belowRoot (builtTree entries now top)) i [];
                  p_merkleRoot := Some (n_hash top);
                  p_timestamp := Some now;
                  p_finalRoot := finalRootOf top now |}).
Proof.
  intros Hi Hfirst.
  destruct (init_ok entries now) as (top & Htop & Hinit).
  { intros ->. done. }
  exists top. split; [done|]. split; [exact Hinit|].
  rewrite (getProof_found _ uid (leafNode <$> entries) i (leafNode (uid, balance))
             (Some (n_hash top))); [done|done| | |].
  - apply (findIndex_first _ _ i (leafNode (uid, balance))).
    + by rewrite list_lookup_fmap, Hi.
    + cbn. by apply bool_decide_eq_true.
    + intros j y Hj Hy. rewrite list_lookup_fmap in Hy.
      destruct (entries !! j) as [[u b]|] eqn:He; [|done].
      injection Hy as <-. cbn. apply bool_decide_eq_false.
      intros [= ->]. by apply (Hfirst j (uid, b)).
  - by rewrite list_lookup_fmap, Hi.
  - by apply (getRoot_top _ top []).
Qed.

(** C10: when an identifier occurs in several entries, extraction
    returns the proof of the entry at the smallest index: its balance, its
    leaf hash and the path that starts at that index.  Nothing in the result
    depends on a later occurrence. *)
Theorem extraction_first_match (entries : list (string * Z)) (now : Z)
    (uid : string) (i : nat) (balance : Z) :
  entries !! i = Some (uid, balance) →
  (∀ (j : nat) (e : string * Z), (j < i)%nat → entries !! j = Some e → e.1 ≠ uid) →
  ∃ (t : PoseidonMerkleTree) (p : Proof),
    init now (newTree entries) = Ok t ∧
    getProofFromStoredData t uid = Ok (Some p) ∧
    p_uid p = uid ∧
    p_balance p = Some balance ∧
    p_leafHash p = hashLeaf uid balance ∧
    p_proof p = proofLoop (belowRoot t) i [].
Proof.
  intros Hi Hfirst.
  destruct (getProof_first entries now uid i balance Hi Hfirst)
    as (top & _ & Hinit & Hp).
  eexists _, _. split; [exact Hinit|]. split; [exact Hp|]. done.
Qed.

(** *** Snapshots *)

Lemma siblingElement_stored (layer : list Node) (index : nat) :
  siblingElement (storedNode <$> layer) index = siblingElement layer index.
Proof.
  unfold siblingElement. rewrite list_lookup_fmap. by destruct (layer !! _).
Qed.

Lemma proofLoop_stored (below : list (list Node)) (nodeIndex : nat)
    (proof : list ProofElement) :
  proofLoop ((fun layer : list Node => storedNode <$> layer) <$> below) nodeIndex proof =
  proofLoop below nodeIndex proof.
Proof.
  revert nodeIndex proof. induction below as [|layer rest IH]; intros n proof; [done|].
  rewrite fmap_cons. cbn [proofLoop].
  rewrite !proofStep_spec, siblingElement_stored. apply IH.
Qed.

Lemma getRoot_stored (t t' : PoseidonMerkleTree) :
  layers t' = (fun layer : list Node => storedNode <$> layer) <$> layers t →
  getRoot t' = getRoot t.
Proof.
  intros Hl. unfold getRoot. rewrite Hl, length_fmap.
  destruct (length (layers t) =? 0)%nat; [done|].
  rewrite list_lookup_fmap. destruct (layers t !! _) as [top|]; [|done].
  cbn. rewrite list_lookup_fmap. by destruct (top !! 0%nat).
Qed.

(** A tree whose layers are the stored copies of the layers of [t], with
    the timestamp and final root of [t], answers extraction as [t] does. *)
Lemma getProof_stored (t t' : PoseidonMerkleTree) (uid : string) :
  layers t' = (fun layer : list Node => storedNode <$> layer) <$> layers t →
  timestamp t' = timestamp t →
  finalRoot t' = finalRoot t →
  getProofFromStoredData t' uid = getProofFromStoredData t uid.
Proof.
  intros Hl Hts Hfr. unfold getProofFromStoredData.
  rewrite (getRoot_stored t t' Hl), Hts, Hfr, Hl, length_fmap, list_lookup_fmap.
  destruct (layers t !! 0%nat) as [leafLayer|]; [|done].
  cbn [fmap option_fmap option_map].
  rewrite findIndex_fmap. unfold compose. cbn [storedNode n_uid].
  destruct (findIndex _ leafLayer) as [nodeIndex|]; [|done].
  rewrite list_lookup_fmap. destruct (leafLayer !! nodeIndex) as [node|]; [|done].
  cbn [fmap option_fmap option_map storedNode n_hash n_balance].
  by rewrite <- fmap_take, proofLoop_stored.
Qed.

(** On a built and finalized tree, extraction finds every identifier of
    the entry list. *)
Lemma getProof_present (entries : list (string * Z)) (now : Z) (uid : string) :
  uid ∈ entries.*1 →
  ∃ (t : PoseidonMerkleTree) (p : Proof),
    init now (newTree entries) = Ok t ∧
    getProofFromStoredData t uid = Ok (Some p).
Proof.
  intros Hin.
  destruct (init_ok entries now) as (top & Htop & Hinit).
  { intros ->. by apply elem_of_nil in Hin. }
  set (t := mkTree _ _ _ _) in Hinit. exists t.
  assert (Hroot : getRoot t = Ok (Some (n_hash top))) by by apply (getRoot_top _ top []).
  destruct (findIndex (fun node => bool_decide (n_uid node = Some uid))
              (leafNode <$> entries)) as [i|] eqn:Hf.
  - destruct (findIndex_Some _ _ _ Hf) as (node & Hnode & _).
    eexists. split; [done|].
    by apply (getProof_found t uid (leafNode <$> entries) i node (Some (n_hash top))).
  - exfalso. apply list_elem_of_fmap in Hin as ([u b] & -> & Hin).
    apply list_elem_of_lookup in Hin as [i Hi]. cbn in Hf.
    clear -Hf Hi. unfold findIndex in Hf. revert Hf. generalize 0%nat.
    revert i Hi. induction entries as [|[u' b'] es IH]; intros i Hi n Hf; [done|].
    cbn in Hf. destruct (bool_decide _) eqn:Hd; [done|].
    destruct i as [|i]; cbn in Hi.
    + injection Hi as -> ->. by apply bool_decide_eq_false in Hd.
    + by apply (IH i Hi (S n)).
Qed.

(** C5: for the tree built from a non-empty entry list, before
    and after it is finalized by [init], [exportToJSON] succeeds, and the tree
    that [initFromJSON] makes of its output returns for every identifier what
    the original tree returns: the same proof, field for field, for every
    identifier of the entry list. *)
Theorem snapshot_round_trip (entries : list (string * Z)) (now : Z)
    (fresh : PoseidonMerkleTree) :
  entries ≠ [] →
  (∃ (t : PoseidonMerkleTree) (snapshot : Snapshot),
      init now (newTree entries) = Ok t ∧
      exportToJSON t = Ok snapshot ∧
      ∀ uid : string,
        getProofFromStoredData (initFromJSON fresh snapshot) uid =
          getProofFromStoredData t uid ∧
        (uid ∈ entries.*1 →
         ∃ p : Proof, getProofFromStoredData t uid = Ok (Some p))) ∧
  (∃ snapshot : Snapshot,
      exportToJSON (buildTree (newTree entries)) = Ok snapshot ∧
      ∀ uid : string,
        getProofFromStoredData (initFromJSON fresh snapshot) uid =
          getProofFromStoredData (buildTree (newTree entries)) uid).
Proof.
  intros Hne. destruct (init_ok entries now Hne) as (top & Htop & Hinit).
  split.
  - fold (builtTree entries now top) in Hinit.
    assert (Hroot : getRoot (builtTree entries now top) = Ok (Some (n_hash top)))
      by by apply (getRoot_top _ top []).
    eexists _, _. split; [exact Hinit|]. split.
    { unfold exportToJSON. rewrite Hroot. reflexivity. }
    intros uid. split; [by apply getProof_stored|].
    intros Hin. destruct (getProof_present entries now uid Hin) as (t' & p & Ht' & Hp).
    exists p. rewrite Hinit in Ht'. by injection Ht' as <-.
  - assert (Hroot : getRoot (buildTree (newTree entries)) = Ok (Some (n_hash top))).
    { apply (getRoot_top _ top []). by rewrite newTree_layers. }
    eexists. split.
    { unfold exportToJSON. rewrite Hroot. reflexivity. }
    intros uid. by apply getProof_stored.
Qed.

(** *** The path fold *)

(** The parent of node [i] is node [i / 2] of the next layer; its hash is
    the combination of the node with its recorded sibling element, or of the
    node with itself when no element is recorded. *)
Lemma pairLayer_parent (l : list Node) (i : nat) (x : Node) :
  l !! i = Some x →
  ∃ parent : Node,
    pairLayer l !! (i / 2)%nat = Some parent ∧
    n_hash parent =
      match siblingElement l i with
      | [] => hash [InBigInt (n_hash x); InBigInt (n_hash x)]
      | e :: _ => combine (n_hash x) e
      end.
Proof.
  intros Hx. pose proof (lookup_lt_Some _ _ _ Hx) as Hi.
  pose proof (Nat.div_mod_eq i 2) as Hdm.
  pose proof (Nat.mod_upper_bound i 2 ltac:(lia)) as Hm.
  destruct (pairLayer l !! (i / 2)%nat) as [parent|] eqn:Hp.
  2:{ apply lookup_ge_None in Hp. rewrite pairLayer_length in Hp.
      pose proof (Nat.div_mod_eq (length l + 1) 2).
      pose proof (Nat.mod_upper_bound (length l + 1) 2 ltac:(lia)). lia. }
  exists parent. split; [done|].
  destruct (pairLayer_lookup _ _ _ Hp) as (lft & Hl & ->). cbn [n_hash].
  unfold siblingElement, combine.
  destruct (Nat.even i) eqn:Hev.
  - apply Nat.even_spec in Hev as [k ->].
    replace (2 * k / 2)%nat with k in * by (rewrite Nat.mul_comm, Nat.div_mul; lia).
    rewrite Hx in Hl. injection Hl as <-.
    destruct (l !! (2 * k + 1)%nat) as [s|]; cbn; [|done].
    by rewrite bool_decide_eq_false_2.
  - assert (Hodd : Nat.odd i = true) by (by rewrite <- Nat.negb_even, Hev).
    apply Nat.odd_spec in Hodd as [k ->].
    replace ((2 * k + 1) / 2)%nat with k in *
      by (rewrite Nat.mul_comm, Nat.div_add_l, Nat.div_small; lia).
    replace (2 * k + 1 - 1)%nat with (2 * k)%nat by lia.
    rewrite Hl, Hx. cbn. by rewrite bool_decide_eq_true_2.
Qed.

Lemma siblingElement_length (layer : list Node) (index : nat) :
  (length (siblingElement layer index) ≤ 1)%nat.
Proof. unfold siblingElement. destruct (layer !! _); cbn; lia. Qed.

(** A path has at most one element for each layer visited. *)
Lemma proofLoop_length (below : list (list Node)) (nodeIndex : nat) :
  (length (proofLoop below nodeIndex []) ≤ length below)%nat.
Proof.
  revert nodeIndex. induction below as [|l ls IH]; intros n; [done|].
  cbn [proofLoop]. rewrite proofStep_spec, proofLoop_acc, length_app.
  cbn [app length]. specialize (IH (n / 2)%nat).
  pose proof (siblingElement_length l n). lia.
Qed.

(** Folding a path that has one element for each layer below the top
    yields the hash of the top node. *)
Lemma fold_full_path (bottom : list Node) (i : nat) (x : Node) :
  bottom !! i = Some x →
  let below := take (length (tower bottom) - 1) (tower bottom) in
  length (proofLoop below i []) = length below →
  ∃ top : Node,
    last (tower bottom) = Some [top] ∧
    fold_left combine (proofLoop below i []) (n_hash x) = n_hash top.
Proof.
  revert i x. pattern bottom, (tower bottom). apply tower_ind; clear bottom.
  - intros bottom Hle i x Hx below _. subst below. cbn.
    destruct bottom as [|a [|b r]]; [done| |cbn in Hle; lia].
    destruct i; [|done]. injection Hx as <-. by exists a.
  - intros bottom Hgt IH i x Hx below Hlen. subst below.
    pose proof (tower_length_pos (pairLayer bottom)) as Hpos.
    cbn [length] in Hlen |- *.
    replace (S (length (tower (pairLayer bottom))) - 1)%nat
      with (S (length (tower (pairLayer bottom)) - 1)) in * by lia.
    cbn [take proofLoop] in Hlen |- *. rewrite proofStep_spec in Hlen |- *.
    cbn [app] in Hlen |- *. rewrite proofLoop_acc in Hlen |- *.
    set (below' := take _ (tower (pairLayer bottom))) in *.
    destruct (pairLayer_parent bottom i x Hx) as (parent & Hparent & Hhash).
    pose proof (siblingElement_length bottom i) as Hsib.
    pose proof (proofLoop_length below' (i / 2)%nat) as Hrest.
    rewrite length_app in Hlen. cbn [length] in Hlen.
    destruct (siblingElement bottom i) as [|e [|e' es]] eqn:He;
      cbn [length] in Hlen, Hsib; [lia| |lia].
    destruct (IH (i / 2)%nat parent Hparent) as (top & Htop & Hfold).
    { fold below'. lia. }
    exists top. split.
    + rewrite <- Htop. unfold tower. reflexivity.
    + rewrite fold_left_app. cbn [fold_left]. by rewrite <- Hhash.
Qed.

(** *** Verification *)

(** [verifyProof] returns a verdict exactly on an iterable argument that
    carries [merkleRoot] and [timestamp]; the verdict is then the one of the
    two checks and their conjunction. *)
Lemma verifyProof_array_with_fields (uid : string) (balance : Z)
    (elems : list ProofElement) (r ts : Z) (f root : option Z) :
  verifyProof uid balance (ArrayArg elems (Some r) (Some ts) f) root =
    let computedHash := fold_left combine elems (hashLeaf uid balance) in
    let pathValid := bool_decide (computedHash = r) in
    let finalValid := bool_decide (Some (hash [InBigInt r; InBigInt ts]) = f) in
    Ok {| merklePathValid := pathValid;
          finalRootValid := finalValid;
          overallValid := pathValid && finalValid |}.
Proof.
  unfold verifyProof. cbn. do 3 f_equal; apply bool_decide_ext; naive_solver.
Qed.

Lemma verifyProof_returns_iff (uid : string) (balance : Z) (proof : ProofArg)
    (root : option Z) :
  (∃ v, verifyProof uid balance proof root = Ok v) ↔
  (∃ elems r ts f, proof = ArrayArg elems (Some r) (Some ts) f).
Proof.
  split.
  - intros [v Hv]. destruct proof as [p|elems [r|] [ts|] f]; try done.
    + by exists elems, r, ts, f.
  - intros (elems & r & ts & f & ->). rewrite verifyProof_array_with_fields. eauto.
Qed.

(** X18: what the two checks of [verifyProof] give when the path array also
    carries the three fields of the extracted proof: for the first entry of
    an identifier, with its balance, a finalization time other than 0 and a
    path with one element for each layer below the root, both checks hold. *)
Lemma verifyProof_full_path (entries : list (string * Z)) (now : Z)
    (uid : string) (i : nat) (balance : Z) :
  now ≠ 0 →
  entries !! i = Some (uid, balance) →
  (∀ (j : nat) (e : string * Z), (j < i)%nat → entries !! j = Some e → e.1 ≠ uid) →
  ∃ (t : PoseidonMerkleTree) (p : Proof),
    init now (newTree entries) = Ok t ∧
    getProofFromStoredData t uid = Ok (Some p) ∧
    (length (p_proof p) = (length (layers t) - 1)%nat →
     verifyProof_plain uid balance (p_proof p) (p_merkleRoot p) = true ∧
     ∀ root : option Z,
       verifyProof uid balance
         (ArrayArg (p_proof p) (p_merkleRoot p) (p_timestamp p) (p_finalRoot p)) root =
       Ok {| merklePathValid := true; finalRootValid := true; overallValid := true |}).
Proof.
  intros Hnow Hi Hfirst.
  destruct (getProof_first entries now uid i balance Hi Hfirst)
    as (top & Htop & Hinit & Hp).
  eexists _, _. split; [exact Hinit|]. split; [exact Hp|].
  cbn [p_proof p_merkleRoot p_timestamp p_finalRoot]. intros Hlen.
  destruct (fold_full_path (leafNode <$> entries) i (leafNode (uid, balance)))
    as (top' & Htop' & Hfold).
  { by rewrite list_lookup_fmap, Hi. }
  { unfold belowRoot in Hlen. cbn [layers builtTree] in Hlen. rewrite Hlen.
    rewrite length_take. lia. }
  rewrite Htop in Htop'. injection Htop' as <-. cbn [leafNode n_hash] in Hfold.
  unfold belowRoot in *. cbn [layers builtTree] in *.
  split.
  - unfold verifyProof_plain. apply bool_decide_eq_true. by rewrite Hfold.
  - intros root. rewrite verifyProof_array_with_fields. cbn zeta.
    rewrite Hfold. unfold finalRootOf.
    destruct (now =? 0) eqn:E; [lia|].
    by rewrite !bool_decide_eq_true_2.
Qed.

(** C2 (what the code does on a proof): on the proof object returned
    by extraction [verifyProof] throws a TypeError, since a plain object is
    not iterable; on its path array, which is what the call sites pass, it
    throws a TypeError as well, since the array has no [merkleRoot] to
    convert.  No verdict is returned in either case. *)
Theorem verifyProof_throws_on_proof (uid : string) (balance : Z) (p : Proof)
    (root : option Z) :
  verifyProof uid balance (ObjectArg p) root = Throw TypeError ∧
  verifyProof uid balance (ArrayArg (p_proof p) None None None) root = Throw TypeError.
Proof. split; reflexivity. Qed.

(** C1 (what the code does on an extracted proof): for a tree built
    and finalized from [entries] and an entry [(uid, balance)] of it,
    extraction returns a proof, and [verifyProof] applied to that proof, or to
    its path array as [verifyMerkleProof] applies it, throws a TypeError
    instead of reporting two valid checks. *)
Theorem verifyProof_of_extraction_throws (entries : list (string * Z)) (now : Z)
    (uid : string) (balance : Z) :
  (uid, balance) ∈ entries →
  ∃ (t : PoseidonMerkleTree) (p : Proof),
    init now (newTree entries) = Ok t ∧
    getProofFromStoredData t uid = Ok (Some p) ∧
    verifyMerkleProof uid balance p = Throw TypeError ∧
    ∀ root : option Z,
      verifyProof uid balance (ObjectArg p) root = Throw TypeError ∧
      verifyProof uid balance (ArrayArg (p_proof p) None None None) root =
        Throw TypeError.
Proof.
  intros Hin.
  destruct (getProof_present entries now uid) as (t & p & Hinit & Hp).
  { apply list_elem_of_fmap. by exists (uid, balance). }
  exists t, p. repeat split; done.
Qed.

(** C8 (what the code does on a single-entry tree): the root is the
    leaf hash of the entry and the extracted proof has an empty path, but
    [verifyProof] on that proof, and [verifyMerkleProof], which passes its
    empty path array, throw a TypeError. *)
Theorem single_entry_tree (uid : string) (balance : Z) (now : Z) :
  ∃ (t : PoseidonMerkleTree) (p : Proof),
    init now (newTree [(uid, balance)]) = Ok t ∧
    getRoot t = Ok (Some (hashLeaf uid balance)) ∧
    getProofFromStoredData t uid = Ok (Some p) ∧
    p_leafHash p = hashLeaf uid balance ∧
    p_merkleRoot p = Some (hashLeaf uid balance) ∧
    p_proof p = [] ∧
    verifyProof uid balance (ObjectArg p) None = Throw TypeError ∧
    verifyMerkleProof uid balance p = Throw TypeError.
Proof.
  destruct (init_ok [(uid, balance)] now) as (top & Htop & Hinit); [done|].
  rewrite tower_eq in Htop, Hinit. cbn in Htop, Hinit. injection Htop as <-.
  eexists _, _. split; [exact Hinit|]. split; [reflexivity|]. split.
  { apply (getProof_found _ uid [leafNode (uid, balance)] 0%nat
             (leafNode (uid, balance)) (Some (hashLeaf uid balance)));
      [reflexivity| |reflexivity|reflexivity].
    apply (findIndex_first _ _ 0%nat (leafNode (uid, balance))); [done| |intros; lia].
    by apply bool_decide_eq_true. }
  by repeat split.
Qed.

(** *** Further properties of construction and extraction *)




Lemma getRoot_throws_iff (t : PoseidonMerkleTree) :
  (∃ e, getRoot t = Throw e) ↔ last (layers t) = Some [].
Proof.
  unfold getRoot. rewrite last_lookup, <- Nat.sub_1_r.
  destruct (layers t) as [|l ls] eqn:Hl; [cbn; split; [by intros [? ?]|done]|].
  rewrite <- Hl. replace (length (layers t) =? 0)%nat with false
    by (rewrite Hl; reflexivity).
  destruct (layers t !! (length (layers t) - 1)%nat) as [topLayer|] eqn:Htop.
  - cbn. destruct topLayer as [|top others]; cbn.
    + split; [done|]. intros _. by eexists.
    + split; [by intros [? ?]|done].
  - apply lookup_ge_None in Htop. rewrite Hl in Htop. cbn in Htop. lia.
Qed.

Lemma getProof_throws_when (t : PoseidonMerkleTree) (uid : string) :
  (∃ e, getProofFromStoredData t uid = Throw e) ↔
  layers t = [] ∨
  (last (layers t) = Some [] ∧
   ∃ (leafLayer : list Node) (i : nat),
     layers t !! 0%nat = Some leafLayer ∧
     findIndex (fun node => bool_decide (n_uid node = Some uid)) leafLayer = Some i).
Proof.
  unfold getProofFromStoredData.
  destruct (layers t !! 0%nat) as [leafLayer|] eqn:H0.
  2:{ split; [|by eexists]. intros _. left.
      apply lookup_ge_None in H0. destruct (layers t); [done|cbn in H0; lia]. }
  destruct (findIndex _ leafLayer) as [i|] eqn:Hf.
  2:{ split; [by intros [? ?]|]. intros [Hnil|(_ & l & i & Hl & Hi)].
      - by rewrite Hnil in H0.
      - injection Hl as <-. by rewrite Hf in Hi. }
  destruct (findIndex_Some _ _ _ Hf) as (node & Hnode & _). rewrite Hnode.
  destruct (getRoot t) as [root|e] eqn:Hr; cbn.
  - split; [by intros [? ?]|]. intros [Hnil|(Hlast & _)].
    + by rewrite Hnil in H0.
    + apply getRoot_throws_iff in Hlast as [e He]. by rewrite Hr in He.
  - split; [|by eexists]. intros _. right. split.
    + apply getRoot_throws_iff. by eexists.
    + by exists leafLayer, i.
Qed.

Lemma getRoot_TypeError (t : PoseidonMerkleTree) (e : JsError) :
  getRoot t = Throw e → e = TypeError.
Proof.
  unfold getRoot. destruct (_ =? _)%nat; [done|].
  destruct (_ ≫= _); [done|]. by intros [= <-].
Qed.

(** X2: extraction throws exactly when the tree has no layers, or when
    the identifier is found in layer 0 and the last layer is empty; the error
    is then a TypeError. *)
Theorem getProof_throws_iff (t : PoseidonMerkleTree) (uid : string) :
  ((∃ e, getProofFromStoredData t uid = Throw e) ↔
   layers t = [] ∨
   (last (layers t) = Some [] ∧
    ∃ (leafLayer : list Node) (i : nat),
      layers t !! 0%nat = Some leafLayer ∧
      findIndex (fun node => bool_decide (n_uid node = Some uid)) leafLayer = Some i)) ∧
  (∀ e, getProofFromStoredData t uid = Throw e → e = TypeError).
Proof.
  split; [apply getProof_throws_when|].
  intros e. unfold getProofFromStoredData.
  destruct (layers t !! 0%nat) as [leafLayer|]; [|by intros [= <-]].
  destruct (findIndex _ leafLayer) as [i|]; [|done].
  destruct (leafLayer !! i) as [node|]; [|by intros [= <-]].
  destruct (getRoot t) as [root|e'] eqn:Hr; [done|].
  cbn. intros [= <-]. by apply (getRoot_TypeError t).
Qed.

(** X3: [init] on a non-empty entry list keeps the entries, builds the
    layers as [buildTree] does, records the time, and stores as final root
    the hash of the root and the time, or nothing when the time is 0. *)
Theorem init_result (entries : list (string * Z)) (now : Z) :
  entries ≠ [] →
  ∃ (t : PoseidonMerkleTree) (root : Z),
    init now (newTree entries) = Ok t ∧
    leaves t = entries ∧
    layers t = layers (buildTree (newTree entries)) ∧
    timestamp t = Some now ∧
    getRoot t = Ok (Some root) ∧
    getRoot (buildTree (newTree entries)) = Ok (Some root) ∧
    finalRoot t =
      if now =? 0 then None else Some (hash [InBigInt root; InBigInt now]).
Proof.
  intros Hne. destruct (init_ok entries now Hne) as (top & Htop & Hinit).
  eexists _, (n_hash top). split; [exact Hinit|]. cbn [leaves layers timestamp finalRoot].
  rewrite newTree_layers. repeat split.
  - by apply (getRoot_top _ top []).
  - apply (getRoot_top _ top []). by rewrite newTree_layers.
Qed.

Lemma siblingElement_position (layer : list Node) (index : nat) :
  Forall (fun e => pe_position e = "left"%string ∨ pe_position e = "right"%string)
         (siblingElement layer index).
Proof.
  unfold siblingElement. destruct (layer !! _); [|constructor].
  constructor; [|constructor]. cbn. destruct (Nat.even index); auto.
Qed.

Lemma proofLoop_position (below : list (list Node)) (nodeIndex : nat) :
  Forall (fun e => pe_position e = "left"%string ∨ pe_position e = "right"%string)
         (proofLoop below nodeIndex []).
Proof.
  revert nodeIndex. induction below as [|layer rest IH]; intros n; [constructor|].
  cbn [proofLoop]. rewrite proofStep_spec, proofLoop_acc. cbn [app].
  apply Forall_app. split; [apply siblingElement_position|apply IH].
Qed.

(** X4: an extracted proof has at most one path element for each layer
    below the top one, every element is marked "left" or "right", and the
    proof carries the identifier asked for and the root, timestamp and final
    root of the tree. *)
Theorem extracted_proof_shape (t : PoseidonMerkleTree) (uid : string) (p : Proof) :
  getProofFromStoredData t uid = Ok (Some p) →
  (length (p_proof p) ≤ length (layers t) - 1)%nat ∧
  Forall (fun e => pe_position e = "left"%string ∨ pe_position e = "right"%string)
         (p_proof p) ∧
  p_uid p = uid ∧
  getRoot t = Ok (p_merkleRoot p) ∧
  p_timestamp p = timestamp t ∧
  p_finalRoot p = finalRoot t.
Proof.
  intros H.
  destruct (getProof_inv _ _ _ H) as (leafLayer & i & node & root & _ & _ & _ & Hr & ->).
  cbn. split.
  - etransitivity; [apply proofLoop_length|]. unfold belowRoot. rewrite length_take. lia.
  - split; [apply proofLoop_position|]. done.
Qed.

(** X5: layer 0 of the built tree lists the entries in input order: node
    [i] carries the identifier and balance of entry [i] and their leaf
    hash. *)
Theorem leaf_layer_order (entries : list (string * Z)) (i : nat)
    (uid : string) (balance : Z) :
  entries !! i = Some (uid, balance) →
  ∃ (leafLayer : list Node) (node : Node),
    layers (buildTree (newTree entries)) !! 0%nat = Some leafLayer ∧
    length leafLayer = length entries ∧
    leafLayer !! i = Some node ∧
    n_uid node = Some uid ∧
    n_balance node = Some balance ∧
    n_hash node = hashLeaf uid balance.
Proof.
  intros Hi. exists (leafNode <$> entries), (leafNode (uid, balance)).
  rewrite newTree_layers. split; [reflexivity|]. split; [apply length_fmap|].
  split; [by rewrite list_lookup_fmap, Hi|]. done.
Qed.

(** *** Height of the tree *)

Lemma half_up_bounds (n : nat) : (n ≤ 2 * ((n + 1) / 2) ≤ n + 1)%nat.
Proof.
  pose proof (Nat.div_mod_eq (n + 1) 2).
  pose proof (Nat.mod_upper_bound (n + 1) 2). lia.
Qed.

Lemma tower_height (bottom : list Node) :
  bottom ≠ [] →
  (length bottom ≤ 2 ^ (length (tower bottom) - 1))%nat ∧
  (2 ≤ length (tower bottom) →
   2 ^ (length (tower bottom) - 2) < length bottom)%nat.
Proof.
  pattern bottom, (tower bottom). apply tower_ind; clear bottom.
  - intros bottom Hle _. cbn. lia.
  - intros bottom Hgt IH _.
    destruct IH as [IHup IHlow].
    { apply pairLayer_nonempty. intros ->. cbn in Hgt. lia. }
    pose proof (tower_length_pos (pairLayer bottom)) as Hpos.
    rewrite pairLayer_length in IHup, IHlow.
    pose proof (half_up_bounds (length bottom)) as Hh.
    cbn [length]. remember (length (tower (pairLayer bottom))) as m eqn:Hm.
    clear Hm. destruct m as [|[|m]]; [lia| |].
    + cbn in *. lia.
    + replace (S (S (S m)) - 1)%nat with (S (S m)) by lia.
      replace (S (S (S m)) - 2)%nat with (S m) by lia.
      replace (S (S m) - 1)%nat with (S m) in IHup by lia.
      replace (S (S m) - 2)%nat with m in IHlow by lia.
      rewrite !Nat.pow_succ_r' in *. split; [lia|]. intros _.
      specialize (IHlow ltac:(lia)). lia.
Qed.

(** X6: the tree built from [n] entries, [n] at least 1, has a number
    [L] of layers with [2 ^ (L - 2) < n ≤ 2 ^ (L - 1)] (the lower bound for
    [L] at least 2): one layer more than the base-2 logarithm of [n] rounded
    up. *)
Theorem tree_height (entries : list (string * Z)) :
  entries ≠ [] →
  let L := length (layers (buildTree (newTree entries))) in
  (1 ≤ L)%nat ∧
  (length entries ≤ 2 ^ (L - 1))%nat ∧
  (2 ≤ L → 2 ^ (L - 2) < length entries)%nat.
Proof.
  intros Hne L. subst L. rewrite newTree_layers.
  destruct (tower_height (leafNode <$> entries)) as [Hup Hlow].
  { by destruct entries. }
  rewrite length_fmap in Hup, Hlow.
  split; [apply tower_length_pos|]. done.
Qed.

(** *** Trees whose layers below the top have even length *)

Lemma full_path_even (bottom : list Node) (i : nat) (x : Node) :
  bottom !! i = Some x →
  let below := take (length (tower bottom) - 1) (tower bottom) in
  Forall (fun layer => Nat.even (length layer) = true) below →
  length (proofLoop below i []) = length below.
Proof.
  revert i x. pattern bottom, (tower bottom). apply tower_ind; clear bottom.
  - intros bottom _ i x _ below _. subst below. reflexivity.
  - intros bottom Hgt IH i x Hx below Heven. subst below.
    pose proof (tower_length_pos (pairLayer bottom)) as Hpos.
    cbn [length] in Heven |- *.
    replace (S (length (tower (pairLayer bottom))) - 1)%nat
      with (S (length (tower (pairLayer bottom)) - 1)) in * by lia.
    cbn [take proofLoop] in Heven |- *. rewrite proofStep_spec. cbn [app].
    rewrite proofLoop_acc, length_app. cbn [length].
    apply Forall_cons in Heven as [Hev Hrest].
    destruct (pairLayer_parent bottom i x Hx) as (parent & Hparent & _).
    rewrite (IH (i / 2)%nat parent Hparent Hrest). f_equal.
    pose proof (lookup_lt_Some _ _ _ Hx) as Hi.
    unfold siblingElement. destruct (Nat.even i) eqn:Hi2.
    + destruct (bottom !! (i + 1)%nat) eqn:Hs; [done|].
      apply lookup_ge_None in Hs. assert (length bottom = S i) as Hlen by lia.
      rewrite Hlen, Nat.even_succ, <- Nat.negb_even, Hi2 in Hev. done.
    + destruct (bottom !! (i - 1)%nat) eqn:Hs; [done|].
      apply lookup_ge_None in Hs. lia.
Qed.

Lemma pow2_layers (h : nat) (bottom : list Node) :
  length bottom = (2 ^ h)%nat →
  length (tower bottom) = S h ∧
  Forall (fun layer => Nat.even (length layer) = true)
         (take (length (tower bottom) - 1) (tower bottom)).
Proof.
  revert bottom. induction h as [|h IH]; intros bottom Hlen.
  - rewrite tower_eq. destruct (decide _) as [Hgt|_]; [cbn in Hlen; lia|].
    split; [done|]. cbn. constructor.
  - rewrite Nat.pow_succ_r' in Hlen.
    assert (0 < 2 ^ h)%nat by (apply Nat.neq_0_lt_0, Nat.pow_nonzero; lia).
    rewrite tower_eq. destruct (decide _) as [_|Hle]; [|lia].
    destruct (IH (pairLayer bottom)) as [Hl Hev].
    { rewrite pairLayer_length, Hlen.
      replace (2 * 2 ^ h + 1)%nat with (1 + 2 ^ h * 2)%nat by lia.
      rewrite Nat.div_add by lia. cbn. lia. }
    cbn [length]. split; [by rewrite Hl|].
    replace (S (length (tower (pairLayer bottom))) - 1)%nat
      with (S (length (tower (pairLayer bottom)) - 1)) by lia.
    cbn [take]. constructor; [|done].
    rewrite Hlen, Nat.even_mul. reflexivity.
Qed.

(** *** The variant without timestamp *)

Lemma getProof_eq (t : PoseidonMerkleTree) (uid : string) :
  getProof t uid =
    match getProofFromStoredData t uid with
    | Ok (Some p) => Ok (Some (plainOf p))
    | Ok None => Ok None
    | Throw e => Throw e
    end.
Proof.
  unfold getProof, getProofFromStoredData.
  destruct (layers t !! 0%nat) as [leafLayer|]; [|done].
  destruct (findIndex _ leafLayer) as [i|]; [|done].
  destruct (leafLayer !! i) as [node|]; [|done].
  by destruct (getRoot t).
Qed.

Lemma getProofFromStoredData_fields (t t' : PoseidonMerkleTree) (uid : string) :
  layers t' = layers t →
  match getProofFromStoredData t' uid with
  | Ok (Some p) => Ok (Some (plainOf p))
  | Ok None => Ok None
  | Throw e => Throw e
  end = getProof t uid.
Proof.
  intros Hl. rewrite <- getProof_eq. unfold getProof, getRoot. by rewrite Hl.
Qed.

(** X7: in the variant without timestamp, for a tree of [2 ^ h] entries
    and the first entry of an identifier, [getProof] returns a proof with
    exactly [h] path elements, and [verifyProof] applied to its identifier,
    balance, path and root returns [true]. *)
Theorem plain_power_of_two_sound (entries : list (string * Z)) (h : nat)
    (uid : string) (i : nat) (balance : Z) :
  length entries = (2 ^ h)%nat →
  entries !! i = Some (uid, balance) →
  (∀ (j : nat) (e : string * Z), (j < i)%nat → entries !! j = Some e → e.1 ≠ uid) →
  ∃ p : PlainProof,
    getProof (init_plain (newTree entries)) uid = Ok (Some p) ∧
    pp_uid p = uid ∧
    pp_balance p = Some balance ∧
    length (pp_proof p) = h ∧
    verifyProof_plain uid balance (pp_proof p) (pp_root p) = true.
Proof.
  intros Hlen Hi Hfirst.
  destruct (getProof_first entries 1 uid i balance Hi Hfirst)
    as (top & Htop & _ & Hp).
  rewrite <- (getProofFromStoredData_fields (init_plain (newTree entries))
                (builtTree entries 1 top) uid)
    by (unfold init_plain; by rewrite newTree_layers).
  rewrite Hp. eexists. split; [reflexivity|].
  cbn [plainOf pp_uid pp_balance pp_proof pp_root
         p_uid p_balance p_proof p_merkleRoot].
  split; [done|]. split; [done|].
  destruct (pow2_layers h (leafNode <$> entries)) as [HL Hev].
  { by rewrite length_fmap. }
  assert (Hx : (leafNode <$> entries) !! i = Some (leafNode (uid, balance)))
    by (by rewrite list_lookup_fmap, Hi).
  pose proof (full_path_even _ i _ Hx Hev) as Hfull. cbn zeta in Hfull.
  unfold belowRoot. cbn [layers builtTree].
  split.
  - rewrite Hfull, length_take, HL. lia.
  - destruct (fold_full_path _ i _ Hx Hfull) as (top' & Htop' & Hfold).
    rewrite Htop in Htop'. injection Htop' as <-.
    unfold verifyProof_plain. apply bool_decide_eq_true.
    cbn [leafNode n_hash] in Hfold. by rewrite Hfold.
Qed.

(** X8: the rebuilt-tree extraction of the variant and the stored-data
    extraction agree: after [buildMerkleTree] of either file on the same
    non-empty entries, [getMerkleProof] of the variant returns the
    identifier, balance, leaf hash, path and root that [getMerkleProof] on
    the stored data returns, for every identifier. *)
Theorem variants_agree (entries : list (string * Z)) (now now' : Z) (uid : string) :
  entries ≠ [] →
  ∃ (t : PoseidonMerkleTree) (treeData : Snapshot) (plainData : PlainSnapshot),
    buildMerkleTree now entries = Ok (t, treeData) ∧
    exportToJSON_plain now' (init_plain (newTree entries)) = Ok plainData ∧
    getMerkleProof_plain uid plainData =
      match getMerkleProof uid treeData with
      | Ok (Some p) => Ok (Some (plainOf p))
      | Ok None => Ok None
      | Throw e => Throw e
      end.
Proof.
  intros Hne. destruct (init_ok entries now Hne) as (top & Htop & Hinit).
  fold (builtTree entries now top) in Hinit.
  assert (Hroot : getRoot (builtTree entries now top) = Ok (Some (n_hash top)))
    by by apply (getRoot_top _ top []).
  assert (Hroot' : getRoot (init_plain (newTree entries)) = Ok (Some (n_hash top))).
  { apply (getRoot_top _ top []). unfold init_plain. by rewrite newTree_layers. }
  eexists _, _, _. split; [|split].
  - unfold buildMerkleTree. rewrite Hinit. cbn [mbind result_bind].
    unfold exportToJSON. rewrite Hroot. reflexivity.
  - unfold exportToJSON_plain. rewrite Hroot'. reflexivity.
  - unfold getMerkleProof_plain, getMerkleProof. cbn [ps_leaves].
    rewrite (getProof_stored (builtTree entries now top)) by reflexivity.
    symmetry. apply getProofFromStoredData_fields.
    unfold init_plain. by rewrite newTree_layers.
Qed.


Lemma storedNode_idemp (node : Node) : storedNode (storedNode node) = storedNode node.
Proof. reflexivity. Qed.

(** X10: exporting a tree that was loaded from a snapshot gives that
    snapshot again. *)
Theorem export_of_loaded_snapshot (t fresh : PoseidonMerkleTree) (snapshot : Snapshot) :
  exportToJSON t = Ok snapshot →
  exportToJSON (initFromJSON fresh snapshot) = Ok snapshot.
Proof.
  unfold exportToJSON. destruct (getRoot t) as [root|] eqn:Hr; [|done].
  cbn [mbind result_bind]. intros [= <-].
  rewrite (getRoot_stored t) by reflexivity. rewrite Hr.
  cbn [mbind result_bind initFromJSON leaves layers timestamp finalRoot
         s_leaves s_layers s_timestamp s_finalRoot].
  do 2 f_equal. rewrite <- list_fmap_compose. apply list_fmap_ext.
  intros _ layer _. unfold compose. rewrite <- list_fmap_compose.
  apply list_fmap_ext. intros _ node _. reflexivity.
Qed.

(** *** Binding *)









(** X13: [buildTree] does not reset the layers: called again on a built
    tree it appends a second copy of them, and the root stays the same. *)
Theorem buildTree_twice (entries : list (string * Z)) :
  entries ≠ [] →
  let t := buildTree (newTree entries) in
  layers (buildTree t) = layers t ++ layers t ∧
  getRoot (buildTree t) = getRoot t ∧
  ∃ root : Z, getRoot t = Ok (Some root).
Proof.
  intros Hne t. subst t. rewrite buildTree_layers, newTree_layers. cbn [leaves buildTree newTree].
  destruct (tower_last (leafNode <$> entries)) as [top Htop]; [by destruct entries|].
  split; [done|].
  rewrite (getRoot_top (buildTree (newTree entries)) top [])
    by (by rewrite newTree_layers).
  split; [|by eexists].
  apply (getRoot_top _ top []). rewrite buildTree_layers, newTree_layers.
  cbn [leaves buildTree newTree]. rewrite last_app, Htop. done.
Qed.

(** X14: with an odd number of entries greater than 1, no path element
    is recorded at layer 0 for the last entry: when its identifier does not
    occur earlier, the extracted path is shorter than the number of layers
    below the root. *)
Theorem lone_leaf_short_path (entries : list (string * Z)) (now : Z)
    (uid : string) (balance : Z) :
  Nat.odd (length entries) = true →
  (1 < length entries)%nat →
  entries !! (length entries - 1)%nat = Some (uid, balance) →
  (∀ (j : nat) (e : string * Z),
      (j < length entries - 1)%nat → entries !! j = Some e → e.1 ≠ uid) →
  ∃ (t : PoseidonMerkleTree) (p : Proof),
    init now (newTree entries) = Ok t ∧
    getProofFromStoredData t uid = Ok (Some p) ∧
    (length (p_proof p) < length (layers t) - 1)%nat.
Proof.
  intros Hodd Hgt Hi Hfirst.
  destruct (getProof_first entries now uid _ balance Hi Hfirst)
    as (top & _ & Hinit & Hp).
  eexists _, _. split; [exact Hinit|]. split; [exact Hp|].
  cbn [p_proof]. unfold belowRoot. cbn [layers builtTree].
  set (bottom := leafNode <$> entries).
  assert (Hlen : length bottom = length entries) by apply length_fmap.
  rewrite tower_eq. destruct (decide _) as [_|Hle]; [|lia].
  pose proof (tower_length_pos (pairLayer bottom)) as Hpos. cbn [length].
  replace (S (length (tower (pairLayer bottom))) - 1)%nat
    with (S (length (tower (pairLayer bottom)) - 1)) by lia.
  cbn [take proofLoop]. rewrite proofStep_spec. cbn [app].
  assert (Hsib : siblingElement bottom (length entries - 1) = []).
  { unfold siblingElement.
    assert (Hev : Nat.even (length entries - 1) = true).
    { replace (length entries) with (S (length entries - 1)) in Hodd by lia.
      by rewrite Nat.odd_succ in Hodd. }
    rewrite Hev. replace (length entries - 1 + 1)%nat with (length bottom) by lia.
    by rewrite (proj2 (lookup_ge_None bottom (length bottom))) by lia. }
  rewrite Hsib.
  pose proof (proofLoop_length
                (take (length (tower (pairLayer bottom)) - 1) (tower (pairLayer bottom)))
                ((length entries - 1) / 2)%nat) as Hle.
  rewrite length_take in Hle. cbn [app] in *. lia.
Qed.

(** X15: what a verdict of [verifyProof] means.  When a verdict is
    returned, the argument is iterable and carries a root and a timestamp;
    the path check holds exactly when folding the elements from the leaf hash
    gives that root, the final-root check exactly when the carried final root
    is the hash of that root and timestamp, the overall result is their
    conjunction, and the [root] parameter has no influence. *)
Theorem verifyProof_verdict (uid : string) (balance : Z) (proof : ProofArg)
    (root : option Z) (v : Verdict) :
  verifyProof uid balance proof root = Ok v →
  ∃ (elems : list ProofElement) (r ts : Z),
    iterate proof = Ok elems ∧
    get_merkleRoot proof = Some r ∧
    get_timestamp proof = Some ts ∧
    (merklePathValid v = true ↔
     fold_left combine elems (hashLeaf uid balance) = r) ∧
    (finalRootValid v = true ↔
     get_finalRoot proof = Some (hash [InBigInt r; InBigInt ts])) ∧
    overallValid v = merklePathValid v && finalRootValid v ∧
    ∀ root' : option Z, verifyProof uid balance proof root' = Ok v.
Proof.
  intros Hv. destruct proof as [p|elems [r|] [ts|] f]; try done.
  rewrite verifyProof_array_with_fields in Hv. cbn zeta in Hv. injection Hv as <-.
  exists elems, r, ts. cbn [iterate get_merkleRoot get_timestamp get_finalRoot
                            merklePathValid finalRootValid overallValid].
  rewrite !bool_decide_eq_true. split_and!; try done.
  - intros root'. by rewrite verifyProof_array_with_fields.
Qed.

End Accumulator.

(** ** The identifier encoding *)

Lemma utf8_bytes (s : string) : Forall isByte (utf8 s).
Proof.
  unfold utf8. apply Forall_fmap, Forall_forall. intros c _. unfold isByte; cbn.
  pose proof (Ascii.N_ascii_bounded c). lia.
Qed.

Lemma utf8_inj (s1 s2 : string) : utf8 s1 = utf8 s2 → s1 = s2.
Proof.
  unfold utf8. intros H.
  assert (Hinj : Inj (=) (=) (fun c : Ascii.ascii => Z.of_N (Ascii.N_of_ascii c))).
  { intros c1 c2 Hc. apply N2Z.inj in Hc.
    by rewrite <- (Ascii.ascii_N_embedding c1), Hc, Ascii.ascii_N_embedding. }
  apply (list_fmap_eq_inj _ Hinj) in H.
  by rewrite <- (String.string_of_list_ascii_of_string s1), H,
    String.string_of_list_ascii_of_string.
Qed.

Lemma utf8_length (s : string) : length (utf8 s) = String.length s.
Proof.
  unfold utf8. rewrite length_fmap. induction s as [|c s IH]; [done|].
  cbn. by rewrite IH.
Qed.

Lemma packBytes_from (bytes : list Z) (num : Z) :
  fold_left (fun num b => Z.shiftl num 8 + b) bytes num =
    num * 256 ^ Z.of_nat (length bytes) + packBytes bytes.
Proof.
  unfold packBytes. revert num. induction bytes as [|b bytes IH]; intros num.
  - cbn. lia.
  - cbn [fold_left length]. rewrite (IH (Z.shiftl num 8 + b)), (IH (Z.shiftl 0 8 + b)).
    rewrite !Z.shiftl_mul_pow2 by lia. rewrite Nat2Z.inj_succ, Z.pow_succ_r by lia.
    lia.
Qed.

Lemma packBytes_cons (b : Z) (bytes : list Z) :
  packBytes (b :: bytes) = b * 256 ^ Z.of_nat (length bytes) + packBytes bytes.
Proof.
  unfold packBytes at 1. cbn [fold_left]. rewrite packBytes_from.
  rewrite Z.shiftl_mul_pow2 by lia. lia.
Qed.

Lemma packBytes_bound (bytes : list Z) :
  Forall isByte bytes → 0 ≤ packBytes bytes < 256 ^ Z.of_nat (length bytes).
Proof.
  induction 1 as [|b bytes Hb _ IH]; [done|].
  rewrite packBytes_cons. cbn [length]. rewrite Nat2Z.inj_succ, Z.pow_succ_r by lia.
  unfold isByte in Hb. nia.
Qed.

(** Byte sequences of one length are packed injectively. *)
Lemma packBytes_inj_length (l1 l2 : list Z) :
  Forall isByte l1 → Forall isByte l2 → length l1 = length l2 →
  packBytes l1 = packBytes l2 → l1 = l2.
Proof.
  intros H1. revert l2. induction H1 as [|b1 l1 Hb1 Hl1 IH]; intros l2 H2 Hlen Heq.
  - by destruct l2.
  - destruct H2 as [|b2 l2 Hb2 Hl2]; [done|]. cbn in Hlen.
    injection Hlen as Hlen. rewrite !packBytes_cons, <- Hlen in Heq.
    pose proof (packBytes_bound l1 Hl1) as B1.
    pose proof (packBytes_bound l2 Hl2) as B2. rewrite <- Hlen in B2.
    assert (b1 = b2) as -> by nia.
    f_equal. apply IH; [done..|lia].
Qed.

(** A sequence that starts with a non-zero byte packs to a number of
    exactly as many base-256 digits as it has bytes. *)
Lemma packBytes_digits (b : Z) (bytes : list Z) :
  isByte b → b ≠ 0 → Forall isByte bytes →
  256 ^ Z.of_nat (length bytes) ≤ packBytes (b :: bytes)
    < 256 ^ Z.of_nat (length (b :: bytes)).
Proof.
  intros Hb Hnz Hl. split; [|by apply packBytes_bound; constructor].
  rewrite packBytes_cons. pose proof (packBytes_bound bytes Hl).
  unfold isByte in Hb. nia.
Qed.

Lemma packBytes_nonzero_length (b1 b2 : Z) (l1 l2 : list Z) :
  isByte b1 → b1 ≠ 0 → Forall isByte l1 →
  isByte b2 → b2 ≠ 0 → Forall isByte l2 →
  packBytes (b1 :: l1) = packBytes (b2 :: l2) → length l1 = length l2.
Proof.
  intros Hb1 Hz1 Hl1 Hb2 Hz2 Hl2 Heq.
  pose proof (packBytes_digits b1 l1 Hb1 Hz1 Hl1) as D1.
  pose proof (packBytes_digits b2 l2 Hb2 Hz2 Hl2) as D2.
  rewrite Heq in D1. cbn [length] in D1, D2.
  destruct (Nat.lt_trichotomy (length l1) (length l2)) as [Hlt|[Heq'|Hgt]]; [|done|].
  - assert (256 ^ Z.of_nat (S (length l1)) ≤ 256 ^ Z.of_nat (length l2))
      by (apply Z.pow_le_mono_r; lia). lia.
  - assert (256 ^ Z.of_nat (S (length l2)) ≤ 256 ^ Z.of_nat (length l1))
      by (apply Z.pow_le_mono_r; lia). lia.
Qed.

Lemma leadingNul_utf8 (uid : string) :
  leadingNul uid = false →
  utf8 uid = [] ∨ ∃ b bytes, utf8 uid = b :: bytes ∧ b ≠ 0.
Proof.
  destruct uid as [|c s]; [by left|]. cbn. intros Hc. right.
  apply bool_decide_eq_false in Hc. eexists _, _. split; [reflexivity|].
  intros H0. apply Hc. rewrite <- (Ascii.ascii_N_embedding c).
  replace (Ascii.N_of_ascii c) with 0%N by lia. reflexivity.
Qed.

Lemma packBytes_utf8_inj (uid1 uid2 : string) :
  (leadingNul uid1 = false ∧ leadingNul uid2 = false) ∨
  String.length uid1 = String.length uid2 →
  packBytes (utf8 uid1) = packBytes (utf8 uid2) → uid1 = uid2.
Proof.
  intros Hcase Heq. apply utf8_inj.
  pose proof (utf8_bytes uid1) as B1. pose proof (utf8_bytes uid2) as B2.
  destruct Hcase as [[N1 N2]|Hlen].
  - apply leadingNul_utf8 in N1, N2.
    destruct N1 as [E1|(b1 & l1 & E1 & Z1)], N2 as [E2|(b2 & l2 & E2 & Z2)];
      rewrite E1, E2 in *.
    + done.
    + exfalso. apply Forall_cons in B2 as [Hb2 Hl2].
      pose proof (packBytes_digits b2 l2 Hb2 Z2 Hl2) as D. rewrite <- Heq in D.
      cbn in D. assert (0 < 256 ^ Z.of_nat (length l2)) by (apply Z.pow_pos_nonneg; lia).
      lia.
    + exfalso. apply Forall_cons in B1 as [Hb1 Hl1].
      pose proof (packBytes_digits b1 l1 Hb1 Z1 Hl1) as D. rewrite Heq in D.
      cbn in D. assert (0 < 256 ^ Z.of_nat (length l1)) by (apply Z.pow_pos_nonneg; lia).
      lia.
    + apply packBytes_inj_length; [done..| |done].
      apply Forall_cons in B1 as [Hb1 Hl1], B2 as [Hb2 Hl2]. cbn. f_equal.
      by apply (packBytes_nonzero_length b1 b2).
  - apply packBytes_inj_length; [done..| |done]. by rewrite !utf8_length.
Qed.

(** C9 (as the code has it): two distinct identifiers are packed to
    distinct integers, by [hashLeaf] and by [uidToFieldElement], when neither
    begins with the character U+0000 or when both have the same number of
    bytes. *)
Theorem encoding_injective (uid1 uid2 : string) :
  (leadingNul uid1 = false ∧ leadingNul uid2 = false) ∨
  String.length uid1 = String.length uid2 →
  uid1 ≠ uid2 →
  packBytes (utf8 uid1) ≠ packBytes (utf8 uid2) ∧
  uidToFieldElement uid1 ≠ uidToFieldElement uid2.
Proof.
  intros Hcase Hne. split; intros Heq; apply Hne, packBytes_utf8_inj; try done.
  unfold uidToFieldElement in Heq. by apply (inj pretty) in Heq.
Qed.




(** X17: a character U+0000 in front of an identifier is ignored:
    [uidToFieldElement] and [hashLeaf] give the same result with and without
    it, and so does the layer-0 hash of an entry. *)
Theorem leading_nul_ignored (Fel : Type) (F_e : Z → Fel) (F_toString : Fel → Z)
    (poseidon : list Fel → Fel) (uid : string) (balance : Z) :
  uidToFieldElement (String Ascii.zero uid) = uidToFieldElement uid ∧
  hashLeaf Fel F_e F_toString poseidon (String Ascii.zero uid) balance =
    hashLeaf Fel F_e F_toString poseidon uid balance ∧
  n_hash (leafNode Fel F_e F_toString poseidon (String Ascii.zero uid, balance)) =
    n_hash (leafNode Fel F_e F_toString poseidon (uid, balance)).
Proof.
  assert (H : packBytes (utf8 (String Ascii.zero uid)) = packBytes (utf8 uid)).
  { change (utf8 (String Ascii.zero uid)) with (0 :: utf8 uid).
    rewrite packBytes_cons. lia. }
  unfold uidToFieldElement, leafNode, hashLeaf. cbn [n_hash]. by rewrite H.
Qed.

(** ** Concrete instances *)

(** The layer lengths of the tree of the five sample entries. *)
Lemma buildTree_layer_lengths_sample :
  sampleEntries ≠ [] ∧
  let L := layers (buildTree Z sampleF_e id samplePoseidon (newTree sampleEntries)) in
  (∀ (i : nat) (prev cur : list Node),
      (0 < i)%nat → L !! (i - 1)%nat = Some prev → L !! i = Some cur →
      length cur = ((length prev + 1) / 2)%nat ∧
      (length prev ≤ 2 * length cur < length prev + 2)%nat) ∧
  (∃ top : Node, L !! (length L - 1)%nat = Some [top]).
Proof.
  split; [done|].
  apply (buildTree_layer_lengths Z sampleF_e id samplePoseidon sampleEntries). done.
Defined.

(** Layers 0 and 1 of the tree of the five sample entries. *)
Lemma buildTree_pairs_adjacent_sample :
  let L := layers (buildTree Z sampleF_e id samplePoseidon (newTree sampleEntries)) in
  ∃ prev cur : list Node,
    L !! 0%nat = Some prev ∧ L !! 1%nat = Some cur ∧
    length cur = ((length prev + 1) / 2)%nat ∧
    ∀ (k : nat) (node : Node),
      cur !! k = Some node →
      ∃ lft : Node,
        prev !! (2 * k)%nat = Some lft ∧
        let rgt := default lft (prev !! (2 * k + 1)%nat) in
        n_hash node =
          hash Z sampleF_e id samplePoseidon [InBigInt (n_hash lft); InBigInt (n_hash rgt)] ∧
        n_left node = Some lft ∧ n_right node = Some rgt.
Proof.
  intros L. eexists _, _.
  assert (H0 : L !! 0%nat = Some (leafNode Z sampleF_e id samplePoseidon <$> sampleEntries))
    by reflexivity.
  assert (H1 : L !! 1%nat =
               Some (pairLayer Z sampleF_e id samplePoseidon
                       (leafNode Z sampleF_e id samplePoseidon <$> sampleEntries)))
    by reflexivity.
  split; [exact H0|]. split; [exact H1|].
  exact (proj1 (buildTree_pairs_adjacent Z sampleF_e id samplePoseidon)
           sampleEntries 0%nat _ _ H0 H1).
Defined.

(** The walk for the third entry of the stored sample tree. *)
Lemma extraction_walk_sample :
  getProofFromStoredData storedSample "c" = Ok (Some storedSampleProof) ∧
  (∀ (layer : list Node) (index : nat) (proof : list ProofElement),
      proofStep layer index proof =
        (proof ++ siblingElement layer index, (index / 2)%nat)) ∧
  ∃ (leafLayer : list Node) (nodeIndex : nat),
    layers storedSample !! 0%nat = Some leafLayer ∧
    findIndex (fun node => bool_decide (n_uid node = Some "c"%string)) leafLayer =
      Some nodeIndex ∧
    p_proof storedSampleProof =
      concat (imap (fun k layer => siblingElement layer (nodeIndex / 2 ^ k)%nat)
                   (belowRoot storedSample)).
Proof.
  split; [reflexivity|].
  apply (extraction_walk storedSample "c" storedSampleProof). reflexivity.
Defined.

(** Extraction of an identifier that occurs at indices 0 and 2. *)
Lemma extraction_first_match_sample :
  duplicateEntries !! 0%nat = Some ("a"%string, 1) ∧
  (∀ (j : nat) (e : string * Z),
      (j < 0)%nat → duplicateEntries !! j = Some e → e.1 ≠ "a"%string) ∧
  ∃ (t : PoseidonMerkleTree) (p : Proof),
    init Z sampleF_e id samplePoseidon sampleNow (newTree duplicateEntries) = Ok t ∧
    getProofFromStoredData t "a" = Ok (Some p) ∧
    p_uid p = "a"%string ∧
    p_balance p = Some 1 ∧
    p_leafHash p = hashLeaf Z sampleF_e id samplePoseidon "a" 1 ∧
    p_proof p = proofLoop (belowRoot t) 0%nat [].
Proof.
  split; [reflexivity|]. split; [intros; lia|].
  apply (extraction_first_match Z sampleF_e id samplePoseidon duplicateEntries
           sampleNow "a" 0%nat 1); [reflexivity|intros; lia].
Defined.

(** The round trip of the tree of the five sample entries. *)
Lemma snapshot_round_trip_sample :
  sampleEntries ≠ [] ∧
  (∃ (t : PoseidonMerkleTree) (snapshot : Snapshot),
      init Z sampleF_e id samplePoseidon sampleNow (newTree sampleEntries) = Ok t ∧
      exportToJSON t = Ok snapshot ∧
      ∀ uid : string,
        getProofFromStoredData (initFromJSON (newTree []) snapshot) uid =
          getProofFromStoredData t uid ∧
        (uid ∈ sampleEntries.*1 →
         ∃ p : Proof, getProofFromStoredData t uid = Ok (Some p))) ∧
  (∃ snapshot : Snapshot,
      exportToJSON (buildTree Z sampleF_e id samplePoseidon (newTree sampleEntries)) =
        Ok snapshot ∧
      ∀ uid : string,
        getProofFromStoredData (initFromJSON (newTree []) snapshot) uid =
          getProofFromStoredData
            (buildTree Z sampleF_e id samplePoseidon (newTree sampleEntries)) uid).
Proof.
  split; [done|].
  apply (snapshot_round_trip Z sampleF_e id samplePoseidon sampleEntries sampleNow
           (newTree [])). done.
Defined.

(** Verification of the proof extracted for the fifth sample entry. *)
Lemma verifyProof_of_extraction_throws_sample :
  ("UID_5"%string, 1500) ∈ sampleEntries ∧
  ∃ (t : PoseidonMerkleTree) (p : Proof),
    init Z sampleF_e id samplePoseidon sampleNow (newTree sampleEntries) = Ok t ∧
    getProofFromStoredData t "UID_5" = Ok (Some p) ∧
    verifyMerkleProof Z sampleF_e id samplePoseidon "UID_5" 1500 p = Throw TypeError ∧
    ∀ root : option Z,
      verifyProof Z sampleF_e id samplePoseidon "UID_5" 1500 (ObjectArg p) root =
        Throw TypeError ∧
      verifyProof Z sampleF_e id samplePoseidon "UID_5" 1500
        (ArrayArg (p_proof p) None None None) root = Throw TypeError.
Proof.
  assert (Hin : ("UID_5"%string, 1500) ∈ sampleEntries).
  { apply (list_elem_of_lookup_2 _ 4%nat). reflexivity. }
  split; [exact Hin|].
  exact (verifyProof_of_extraction_throws Z sampleF_e id samplePoseidon sampleEntries
           sampleNow "UID_5" 1500 Hin).
Defined.

(** Two of the sample identifiers. *)
Lemma encoding_injective_sample :
  ((leadingNul "UID_1" = false ∧ leadingNul "UID_2" = false) ∨
   String.length "UID_1" = String.length "UID_2") ∧
  "UID_1"%string ≠ "UID_2"%string ∧
  packBytes (utf8 "UID_1") ≠ packBytes (utf8 "UID_2") ∧
  uidToFieldElement "UID_1" ≠ uidToFieldElement "UID_2".
Proof.
  assert (Hc : (leadingNul "UID_1" = false ∧ leadingNul "UID_2" = false) ∨
               String.length "UID_1" = String.length "UID_2")
    by (left; split; reflexivity).
  assert (Hne : "UID_1"%string ≠ "UID_2"%string) by discriminate.
  split; [exact Hc|]. split; [exact Hne|].
  exact (encoding_injective "UID_1" "UID_2" Hc Hne).
Defined.

(** *** Inputs on which a claim of the specification fails *)

(** [buildTree] on an empty entry list completes, with one empty layer, and
    [init] does not fail with an error called EmptyInputError. *)
Lemma build_empty_no_EmptyInputError :
  layers (buildTree Z sampleF_e id samplePoseidon (newTree [])) = [[]] ∧
  ¬ failsWith (init Z sampleF_e id samplePoseidon sampleNow (newTree []))
              "EmptyInputError".
Proof.
  split; [reflexivity|]. intros (e & He & Hname).
  injection He as <-. discriminate Hname.
Qed.

(** The identifiers "a" and U+0000 followed by "a" are distinct and are
    packed to the same integer. *)
Lemma encoding_collision :
  let uid1 := "a"%string in
  let uid2 := String Ascii.zero "a" in
  uid1 ≠ uid2 ∧
  packBytes (utf8 uid1) = packBytes (utf8 uid2) ∧
  uidToFieldElement uid1 = uidToFieldElement uid2.
Proof. split; [discriminate|]. split; reflexivity. Qed.

(** The fifth of the five sample entries is the unpaired node of layer 0,
    and its parent is the unpaired node of layer 1: extraction records a
    single path element for the three layers below the root, and folding
    that path from the leaf hash does not give the root, although the final
    root matches. *)
Lemma lone_leaf_path_rejected :
  ∃ (t : PoseidonMerkleTree) (p : Proof),
    init Z sampleF_e id samplePoseidon sampleNow (newTree sampleEntries) = Ok t ∧
    getProofFromStoredData t "UID_5" = Ok (Some p) ∧
    p_balance p = Some 1500 ∧
    length (layers t) = 4%nat ∧
    length (p_proof p) = 1%nat ∧
    verifyProof_plain Z sampleF_e id samplePoseidon "UID_5" 1500
      (p_proof p) (p_merkleRoot p) = false ∧
    verifyProof Z sampleF_e id samplePoseidon "UID_5" 1500
      (ArrayArg (p_proof p) (p_merkleRoot p) (p_timestamp p) (p_finalRoot p)) None =
      Ok {| merklePathValid := false; finalRootValid := true; overallValid := false |}.
Proof.
  eexists _, _. split; [vm_compute; reflexivity|].
  split; [vm_compute; reflexivity|]. by vm_compute.
Qed.

(** *** Instances of the further properties *)

Ltac first_occurrence :=
  let j := fresh "j" in
  let e := fresh "e" in
  let Hj := fresh "Hj" in
  let He := fresh "He" in
  intros j e Hj He;
  repeat (destruct j as [|j]; [injection He as <-; discriminate|]);
  cbn in Hj; lia.


(** [init] on the entries of the caller script. *)
Lemma init_result_sample :
  fourEntries ≠ [] ∧
  ∃ (t : PoseidonMerkleTree) (root : Z),
    init Z sampleF_e id samplePoseidon sampleNow (newTree fourEntries) = Ok t ∧
    leaves t = fourEntries ∧
    layers t = layers (buildTree Z sampleF_e id samplePoseidon (newTree fourEntries)) ∧
    timestamp t = Some sampleNow ∧
    getRoot t = Ok (Some root) ∧
    getRoot (buildTree Z sampleF_e id samplePoseidon (newTree fourEntries)) =
      Ok (Some root) ∧
    finalRoot t =
      if sampleNow =? 0 then None
      else Some (hash Z sampleF_e id samplePoseidon [InBigInt root; InBigInt sampleNow]).
Proof.
  split; [done|].
  apply (init_result Z sampleF_e id samplePoseidon fourEntries sampleNow). done.
Defined.

(** The shape of the stored sample proof. *)
Lemma extracted_proof_shape_sample :
  getProofFromStoredData storedSample "c" = Ok (Some storedSampleProof) ∧
  (length (p_proof storedSampleProof) ≤ length (layers storedSample) - 1)%nat ∧
  Forall (fun e => pe_position e = "left"%string ∨ pe_position e = "right"%string)
         (p_proof storedSampleProof) ∧
  p_uid storedSampleProof = "c"%string ∧
  getRoot storedSample = Ok (p_merkleRoot storedSampleProof) ∧
  p_timestamp storedSampleProof = timestamp storedSample ∧
  p_finalRoot storedSampleProof = finalRoot storedSample.
Proof.
  split; [reflexivity|].
  apply (extracted_proof_shape storedSample "c" storedSampleProof). reflexivity.
Defined.

(** Node 2 of layer 0 for the entries of the caller script. *)
Lemma leaf_layer_order_sample :
  fourEntries !! 2%nat = Some ("3"%string, 4000) ∧
  ∃ (leafLayer : list Node) (node : Node),
    layers (buildTree Z sampleF_e id samplePoseidon (newTree fourEntries)) !! 0%nat =
      Some leafLayer ∧
    length leafLayer = length fourEntries ∧
    leafLayer !! 2%nat = Some node ∧
    n_uid node = Some "3"%string ∧
    n_balance node = Some 4000 ∧
    n_hash node = hashLeaf Z sampleF_e id samplePoseidon "3" 4000.
Proof.
  split; [reflexivity|].
  apply (leaf_layer_order Z sampleF_e id samplePoseidon fourEntries 2%nat).
  reflexivity.
Defined.

(** The height of the tree of the five sample entries. *)
Lemma tree_height_sample :
  sampleEntries ≠ [] ∧
  let L := length (layers (buildTree Z sampleF_e id samplePoseidon
                             (newTree sampleEntries))) in
  (1 ≤ L)%nat ∧
  (length sampleEntries ≤ 2 ^ (L - 1))%nat ∧
  (2 ≤ L → 2 ^ (L - 2) < length sampleEntries)%nat.
Proof.
  split; [done|].
  apply (tree_height Z sampleF_e id samplePoseidon sampleEntries). done.
Defined.

(** The third of the four entries of the caller script, in the variant. *)
Lemma plain_power_of_two_sound_sample :
  length fourEntries = (2 ^ 2)%nat ∧
  fourEntries !! 2%nat = Some ("3"%string, 4000) ∧
  (∀ (j : nat) (e : string * Z),
      (j < 2)%nat → fourEntries !! j = Some e → e.1 ≠ "3"%string) ∧
  ∃ p : PlainProof,
    getProof (init_plain Z sampleF_e id samplePoseidon (newTree fourEntries)) "3" =
      Ok (Some p) ∧
    pp_uid p = "3"%string ∧
    pp_balance p = Some 4000 ∧
    length (pp_proof p) = 2%nat ∧
    verifyProof_plain Z sampleF_e id samplePoseidon "3" 4000 (pp_proof p) (pp_root p) =
      true.
Proof.
  split; [reflexivity|]. split; [reflexivity|]. split; [first_occurrence|].
  apply (plain_power_of_two_sound Z sampleF_e id samplePoseidon fourEntries 2%nat
           "3" 2%nat 4000); [reflexivity|reflexivity|first_occurrence].
Defined.

(** Both ways of extraction on the entries of the caller script. *)
Lemma variants_agree_sample :
  fourEntries ≠ [] ∧
  ∃ (t : PoseidonMerkleTree) (treeData : Snapshot) (plainData : PlainSnapshot),
    buildMerkleTree Z sampleF_e id samplePoseidon sampleNow fourEntries =
      Ok (t, treeData) ∧
    exportToJSON_plain sampleNow
      (init_plain Z sampleF_e id samplePoseidon (newTree fourEntries)) = Ok plainData ∧
    getMerkleProof_plain Z sampleF_e id samplePoseidon "3" plainData =
      match getMerkleProof "3" treeData with
      | Ok (Some p) => Ok (Some (plainOf p))
      | Ok None => Ok None
      | Throw e => Throw e
      end.
Proof.
  split; [done|].
  apply (variants_agree Z sampleF_e id samplePoseidon fourEntries sampleNow sampleNow
           "3"). done.
Defined.


(** The snapshot of the stored sample tree. *)
Lemma export_of_loaded_snapshot_sample :
  ∃ snapshot : Snapshot,
    exportToJSON storedSample = Ok snapshot ∧
    exportToJSON (initFromJSON (newTree []) snapshot) = Ok snapshot.
Proof.
  eexists. split; [reflexivity|].
  apply (export_of_loaded_snapshot storedSample (newTree [])). reflexivity.
Defined.



(** [buildTree] twice on the entries of the caller script. *)
Lemma buildTree_twice_sample :
  fourEntries ≠ [] ∧
  let t := buildTree Z sampleF_e id samplePoseidon (newTree fourEntries) in
  layers (buildTree Z sampleF_e id samplePoseidon t) = layers t ++ layers t ∧
  getRoot (buildTree Z sampleF_e id samplePoseidon t) = getRoot t ∧
  ∃ root : Z, getRoot t = Ok (Some root).
Proof.
  split; [done|].
  apply (buildTree_twice Z sampleF_e id samplePoseidon fourEntries). done.
Defined.

(** The fifth of the five sample entries. *)
Lemma lone_leaf_short_path_sample :
  Nat.odd (length sampleEntries) = true ∧
  (1 < length sampleEntries)%nat ∧
  sampleEntries !! (length sampleEntries - 1)%nat = Some ("UID_5"%string, 1500) ∧
  (∀ (j : nat) (e : string * Z),
      (j < length sampleEntries - 1)%nat → sampleEntries !! j = Some e →
      e.1 ≠ "UID_5"%string) ∧
  ∃ (t : PoseidonMerkleTree) (p : Proof),
    init Z sampleF_e id samplePoseidon sampleNow (newTree sampleEntries) = Ok t ∧
    getProofFromStoredData t "UID_5" = Ok (Some p) ∧
    (length (p_proof p) < length (layers t) - 1)%nat.
Proof.
  split; [reflexivity|]. split; [cbn; lia|]. split; [reflexivity|].
  split; [first_occurrence|].
  apply (lone_leaf_short_path Z sampleF_e id samplePoseidon sampleEntries sampleNow
           "UID_5" 1500); [reflexivity|cbn; lia|reflexivity|first_occurrence].
Defined.

(** A verdict for an empty path array that carries a root and a
    timestamp. *)
Lemma verifyProof_verdict_sample :
  let proof := ArrayArg [] (Some 5) (Some sampleNow) None in
  ∃ v : Verdict,
    verifyProof Z sampleF_e id samplePoseidon "1" 5000 proof None = Ok v ∧
    ∃ (elems : list ProofElement) (r ts : Z),
      iterate proof = Ok elems ∧
      get_merkleRoot proof = Some r ∧
      get_timestamp proof = Some ts ∧
      (merklePathValid v = true ↔
       fold_left (combine Z sampleF_e id samplePoseidon) elems
         (hashLeaf Z sampleF_e id samplePoseidon "1" 5000) = r) ∧
      (finalRootValid v = true ↔
       get_finalRoot proof =
         Some (hash Z sampleF_e id samplePoseidon [InBigInt r; InBigInt ts])) ∧
      overallValid v = merklePathValid v && finalRootValid v ∧
      ∀ root' : option Z,
        verifyProof Z sampleF_e id samplePoseidon "1" 5000 proof root' = Ok v.
Proof.
  intros proof. eexists. split; [reflexivity|].
  apply (verifyProof_verdict Z sampleF_e id samplePoseidon "1" 5000 proof None).
  reflexivity.
Defined.

(** The third of the five sample entries has a path of full length. *)
Lemma verifyProof_full_path_sample :
  sampleNow ≠ 0 ∧
  sampleEntries !! 2%nat = Some ("UID_3"%string, 750) ∧
  (∀ (j : nat) (e : string * Z),
      (j < 2)%nat → sampleEntries !! j = Some e → e.1 ≠ "UID_3"%string) ∧
  ∃ (t : PoseidonMerkleTree) (p : Proof),
    init Z sampleF_e id samplePoseidon sampleNow (newTree sampleEntries) = Ok t ∧
    getProofFromStoredData t "UID_3" = Ok (Some p) ∧
    (length (p_proof p) = (length (layers t) - 1)%nat →
     verifyProof_plain Z sampleF_e id samplePoseidon "UID_3" 750
       (p_proof p) (p_merkleRoot p) = true ∧
     ∀ root : option Z,
       verifyProof Z sampleF_e id samplePoseidon "UID_3" 750
         (ArrayArg (p_proof p) (p_merkleRoot p) (p_timestamp p) (p_finalRoot p)) root =
       Ok {| merklePathValid := true; finalRootValid := true; overallValid := true |}).
Proof.
  split; [done|]. split; [reflexivity|]. split; [first_occurrence|].
  apply (verifyProof_full_path Z sampleF_e id samplePoseidon sampleEntries sampleNow
           "UID_3" 2%nat 750); [done|reflexivity|first_occurrence].
Defined.
